(** * vw/Core/ThreadPool.h: work queues with a bounded pool of worker slots

    A shallow embedding of [WorkQueue], [FifoWorkQueue] and
    [OrderedWorkQueue].  Every member function becomes a computation in a
    small monad that threads the object's fields, records the observable
    effects of the call (mutex acquisitions and releases, thread creation,
    condition-variable signalling) and propagates C++ exceptions.

    Platform conventions: [int] is a 32-bit two's-complement integer and
    [size_t] a 64-bit unsigned one (LP64).  Signed overflow, which C++
    leaves undefined, is modelled by wrap-around and written out wherever
    the source does arithmetic on an [int].  Allocation never fails.

    Threads appear through the calls they make: a history is a sequence of
    calls of member functions, each run to its end on the object the
    previous call left.  A task is opaque: what running one does is a
    parameter of the worker thread. *)

From stdpp Require Import base numbers list list_numbers gmap fin_maps.

Local Open Scope Z_scope.

(** ** Machine integers *)

Definition INT_MIN : Z := -2147483648.
Definition INT_MAX : Z := 2147483647.
Definition SIZE_MAX : Z := 18446744073709551615.

(** Value of a mathematical integer once stored in an [int]. *)
Definition to_int (z : Z) : Z := (z + 2147483648) `mod` 4294967296 - 2147483648.

(** Implicit conversion to [size_t], as in [resize(num_threads)]. *)
Definition to_size_t (z : Z) : Z := z `mod` (SIZE_MAX + 1).

Definition is_int (z : Z) : Prop := INT_MIN ≤ z ≤ INT_MAX.

(** [std::vector<boost::shared_ptr<Thread> >::max_size()]: the largest
    element count the container accepts; a request beyond it makes
    [resize] throw [std::length_error].  The value is the one of an LP64
    libstdc++ (PTRDIFF_MAX divided by the 16 bytes of a shared pointer). *)
Definition vector_max_size : Z := 9223372036854775807 `div` 16.

(** ** Effects *)

(** The two mutexes of a concrete queue object: [m_queue_mutex] belongs to
    the [WorkQueue] base and guards the slot table, [m_mutex] belongs to
    the derived class and guards the pending tasks. *)
Inductive mutex := m_queue_mutex | m_mutex.

Global Instance mutex_eq_dec : EqDecision mutex.
Proof. solve_decision. Defined.

(** Exceptions the modelled code can raise. *)
Inductive exn :=
  | LogicErr        (* thrown by a failed VW_ASSERT *)
  | length_error.   (* thrown by std::vector::resize *)

Inductive outcome (A : Type) :=
  | Ret (a : A)
  | Throw (e : exn).
Global Arguments Ret {A} a.
Global Arguments Throw {A} e.

Section Effects.
Context {Task : Type}.

(** Modelled from the spec: the primitives of vw/Core/Thread.h ([Mutex],
    [Mutex::Lock], [Condition], [Thread]) are not among the sources.  The
    spec asks of them a mutex with lock and unlock, a condition variable
    with wait and notify-all, and a thread that runs a callable; a call's
    use of them is recorded as an effect. *)
Inductive event :=
  | Lock (m : mutex)                        (* Mutex::Lock constructed *)
  | Unlock (m : mutex)                      (* Mutex::Lock destroyed   *)
  | Spawn (thread_id : Z) (task : Task)     (* a new Thread running a WorkerThread *)
  | NotifyAll                               (* m_joined_event.notify_all() *)
  | Wait.                                   (* m_joined_event.wait(lock) put the caller to sleep *)

(** A member function over an object of type [S]: result or exception,
    the object afterwards, and the effects in program order. *)
Definition M (S A : Type) : Type := S → outcome A * S * list event.

Definition ret {S A} (a : A) : M S A := λ s, (Ret a, s, []).

Definition bind {S A B} (k : A → M S B) (c : M S A) : M S B :=
  λ s, match c s with
       | (Ret a, s1, tr1) =>
           match k a s1 with
           | (r, s2, tr2) => (r, s2, tr1 ++ tr2)
           end
       | (Throw e, s1, tr1) => (Throw e, s1, tr1)
       end.

Definition get {S} : M S S := λ s, (Ret s, s, []).
Definition put {S} (s : S) : M S unit := λ _, (Ret tt, s, []).
Definition emit {S} (e : event) : M S unit := λ s, (Ret tt, s, [e]).
Definition throw {S A} (e : exn) : M S A := λ s, (Throw e, s, []).

(** Modelled from the spec: [Mutex::Lock lock(m)] of vw/Core/Thread.h is a
    scoped lock.  Declared at the head of a block it acquires [m], and its
    destructor releases [m] when the block is left, also by an exception. *)
Definition scoped_lock {S A} (m : mutex) (body : M S A) : M S A :=
  λ s, match body s with
       | (r, s', tr) => (r, s', Lock m :: tr ++ [Unlock m])
       end.

(** Modelled from the spec: the macro VW_ASSERT(cond, excep) of
    vw/Core/Exception.h is not among the sources.  A failed assertion is
    loud: it raises the given error instead of letting the caller go on. *)
Definition VW_ASSERT {S} (cond : bool) (excep : exn) : M S unit :=
  if cond then ret tt else throw excep.

(** Run a member function of a sub-object inside the enclosing object. *)
Definition zoom {S T A} (proj : S → T) (upd : T → S → S) (c : M T A) : M S A :=
  λ s, match c (proj s) with
       | (r, t', tr) => (r, upd t' s, tr)
       end.
End Effects.

Global Arguments event : clear implicits.
Global Arguments M : clear implicits.

Global Instance M_ret {Task S} : MRet (M Task S) := λ A, ret.
Global Instance M_bind {Task S} : MBind (M Task S) := λ A B, bind.

(** ** WorkQueue: the base class *)

Module WorkQueue.
Section Defs.
Context {Task : Type}.

(** The [WorkerThread] functor handed to a new [Thread]. *)
Record WorkerThread := {
  m_task : Task;
  m_thread_id : Z
}.

Record t := {
  m_active_workers : Z;
  m_max_workers : Z;
  m_running_threads : list (option WorkerThread);
  m_available_thread_ids : list Z
}.

(** [WorkQueue(int num_threads)].  [resize] converts its argument to
    [size_t] and throws before anything is stored when the converted
    count exceeds [max_size()]; the loop then pushes 0 .. num_threads-1. *)
Definition ctor (num_threads : Z) : outcome t :=
  if vector_max_size <? to_size_t num_threads then Throw length_error
  else Ret {| m_active_workers := 0;
              m_max_workers := num_threads;
              m_running_threads := replicate (Z.to_nat (to_size_t num_threads)) None;
              m_available_thread_ids := seqZ 0 num_threads |}.

(** [m_running_threads[i] = v].  The source indexes without a bounds
    check; an out-of-range index (undefined in C++) leaves the model
    unchanged. *)
Definition set_running (i : Z) (v : option WorkerThread) (q : t) : t :=
  {| m_active_workers := m_active_workers q;
     m_max_workers := m_max_workers q;
     m_running_threads := <[Z.to_nat i := v]> (m_running_threads q);
     m_available_thread_ids := m_available_thread_ids q |}.

Definition set_active (a : Z) (q : t) : t :=
  {| m_active_workers := a;
     m_max_workers := m_max_workers q;
     m_running_threads := m_running_threads q;
     m_available_thread_ids := m_available_thread_ids q |}.

Definition set_available (l : list Z) (q : t) : t :=
  {| m_active_workers := m_active_workers q;
     m_max_workers := m_max_workers q;
     m_running_threads := m_running_threads q;
     m_available_thread_ids := l |}.

Definition worker_thread_complete (worker_id : Z) : M Task t unit :=
  scoped_lock m_queue_mutex (
    q ← get;
    put (set_active (to_int (m_active_workers q - 1)) q);;
    q ← get;
    VW_ASSERT ((0 <=? worker_id) &&
               (worker_id <? to_int (Z.of_nat (length (m_running_threads q)))))
              LogicErr;;
    put (set_running worker_id None q);;
    q ← get;
    put (set_available (m_available_thread_ids q ++ [worker_id]) q);;
    emit NotifyAll).

Definition max_threads : M Task t Z :=
  scoped_lock m_queue_mutex (q ← get; mret (m_max_workers q)).

Definition active_threads : M Task t Z :=
  scoped_lock m_queue_mutex (q ← get; mret (m_active_workers q)).

(** One pass through the body of the [while (!finished)] loop of
    [join_all]: the result is the value of [finished] after the pass.
    [wait] gives the mutex up while the caller sleeps and takes it back
    before returning. *)
Definition join_all_pass : M Task t bool :=
  scoped_lock m_queue_mutex (
    q ← get;
    if negb (m_active_workers q =? 0)
    then emit (Unlock m_queue_mutex);; emit Wait;; emit (Lock m_queue_mutex);; mret false
    else mret true).
End Defs.
Global Arguments WorkerThread : clear implicits.
Global Arguments t : clear implicits.
End WorkQueue.

(** ** The virtual interface and the dispatch loop *)

(** [virtual boost::shared_ptr<Task> get_next_task() = 0].  The fields of
    [WorkQueue] are private, so an implementation works on the fields [P]
    the derived class adds; [None] is the empty shared pointer. *)
Class TaskSource (Task P : Type) := get_next_task : M Task P (option Task).
Global Hint Mode TaskSource - ! : typeclass_instances.

Section Dispatch.
Context {Task P : Type} `{!TaskSource Task P}.
Import WorkQueue.

(** An object of a class derived from [WorkQueue]. *)
Record object := {
  base : WorkQueue.t Task;
  derived : P
}.

Definition in_base {A} (c : M Task (WorkQueue.t Task) A) : M Task object A :=
  zoom base (λ b o, {| base := b; derived := derived o |}) c.

Definition in_derived {A} (c : M Task P A) : M Task object A :=
  zoom derived (λ p o, {| base := base o; derived := p |}) c.

(** The [while] loop of [notify].  [ids] is [m_available_thread_ids] on
    entry to the iteration: the test [size() != 0] is the match on it,
    and [&&] evaluates [get_next_task] only when that test succeeds. *)
Fixpoint notify_loop (ids : list Z) : M Task object unit :=
  match ids with
  | [] => mret tt
  | next_available_thread_id :: rest =>
      task ← in_derived get_next_task;
      match task with
      | None => mret tt
      | Some task =>
          in_base (q ← get; put (set_available rest q));;
          emit (Spawn next_available_thread_id task);;
          in_base (q ← get;
                   put (set_running next_available_thread_id
                          (Some {| m_task := task;
                                   m_thread_id := next_available_thread_id |}) q));;
          in_base (q ← get; put (set_active (to_int (m_active_workers q + 1)) q));;
          notify_loop rest
      end
  end.

Definition notify : M Task object unit :=
  scoped_lock m_queue_mutex (
    o ← get;
    notify_loop (m_available_thread_ids (base o))).
End Dispatch.
Global Arguments object : clear implicits.

(** ** FifoWorkQueue *)

Module FifoWorkQueue.
Section Defs.
Context {Task : Type}.

Record t := { m_queued_tasks : list Task }.

Definition ctor (num_threads : Z) : outcome (object Task t) :=
  match WorkQueue.ctor num_threads with
  | Ret b => Ret {| base := b; derived := {| m_queued_tasks := [] |} |}
  | Throw e => Throw e
  end.

Definition get_next_task : M Task t (option Task) :=
  scoped_lock m_mutex (
    s ← get;
    if Z.of_nat (length (m_queued_tasks s)) =? 0 then mret None
    else
      match m_queued_tasks s with
      | [] => mret None
      | task :: rest => put {| m_queued_tasks := rest |};; mret (Some task)
      end).

Global Instance task_source : TaskSource Task t := get_next_task.

Definition size : M Task (object Task t) Z :=
  in_derived (scoped_lock m_mutex (
    s ← get; mret (to_int (Z.of_nat (length (m_queued_tasks s)))))).

Definition add_task (task : Task) : M Task (object Task t) unit :=
  in_derived (scoped_lock m_mutex (
    s ← get; put {| m_queued_tasks := m_queued_tasks s ++ [task] |}));;
  notify.
End Defs.
Global Arguments t : clear implicits.
End FifoWorkQueue.

(** ** OrderedWorkQueue *)

Module OrderedWorkQueue.
Section Defs.
Context {Task : Type}.

(** [std::map<int, boost::shared_ptr<Task> >] is a finite map that is
    iterated by increasing key. *)
Record t := {
  m_queued_tasks : gmap Z Task;
  m_next_index : Z
}.

(** The entry [m_queued_tasks.begin()] points to: the one with the least
    key, or nothing ([end()]) in an empty map. *)
Definition least_of (l : list (Z * Task)) : option (Z * Task) :=
  foldr (λ kv least,
           match least with
           | None => Some kv
           | Some kv' => if kv.1 <? kv'.1 then Some kv else Some kv'
           end) None l.

Definition map_begin (m : gmap Z Task) : option (Z * Task) :=
  least_of (map_to_list m).

Definition ctor (num_threads : Z) : outcome (object Task t) :=
  match WorkQueue.ctor num_threads with
  | Ret b => Ret {| base := b;
                    derived := {| m_queued_tasks := ∅; m_next_index := 0 |} |}
  | Throw e => Throw e
  end.

(** The emptiness test comes before the lock is taken.  The iterator is
    dereferenced without a test against [end()]; with the map known to be
    non-empty that case does not arise, and the model answers [None]. *)
Definition get_next_task : M Task t (option Task) :=
  s ← get;
  if Z.of_nat (size (m_queued_tasks s)) =? 0 then mret None
  else
    scoped_lock m_mutex (
      s ← get;
      match map_begin (m_queued_tasks s) with
      | None => mret None
      | Some (first, second) =>
          if negb (first =? m_next_index s) then mret None
          else
            put {| m_queued_tasks := delete first (m_queued_tasks s);
                   m_next_index := m_next_index s |};;
            s ← get;
            put {| m_queued_tasks := m_queued_tasks s;
                   m_next_index := to_int (m_next_index s + 1) |};;
            mret (Some second)
      end).

Global Instance task_source : TaskSource Task t := get_next_task.

Definition size : M Task (object Task t) Z :=
  in_derived (scoped_lock m_mutex (
    s ← get; mret (to_int (Z.of_nat (size (m_queued_tasks s)))))).

Definition add_task (task : Task) (index : Z) : M Task (object Task t) unit :=
  in_derived (scoped_lock m_mutex (
    s ← get;
    put {| m_queued_tasks := <[index := task]> (m_queued_tasks s);
           m_next_index := m_next_index s |}));;
  notify.
End Defs.
Global Arguments t : clear implicits.
End OrderedWorkQueue.

(** ** Calls on a queue object and their interleavings *)

Section Calls.
Context {Task : Type}.

(** Tasks handed to newly created worker threads, in creation order. *)
Fixpoint spawned (tr : list (event Task)) : list (Z * Task) :=
  match tr with
  | [] => []
  | Spawn thread_id task :: tr' => (thread_id, task) :: spawned tr'
  | _ :: tr' => spawned tr'
  end.

(** Tasks a call hands out: those given to new workers, and the one
    returned to a caller of [get_next_task]. *)
Definition handed_out (r : outcome (option Task)) (tr : list (event Task)) : list Task :=
  (spawned tr).*2 ++
  match r with
  | Ret (Some task) => [task]
  | _ => []
  end.

(** The calls of [cs] one after the other, each started on the object the
    previous one left: final object, tasks handed out, effects. *)
Fixpoint run {S C} (exec : C → M Task S (option Task)) (cs : list C) (s : S)
    : S * list Task * list (event Task) :=
  match cs with
  | [] => (s, [], [])
  | c :: cs' =>
      match exec c s with
      | (r, s1, tr1) =>
          match run exec cs' s1 with
          | (s2, out, tr2) => (s2, handed_out r tr1 ++ out, tr1 ++ tr2)
          end
      end
  end.

(** The effects of one thread that makes the calls of [h] in turn, each
    begun on whatever object the other threads have left. *)
Definition thread_effects {S C} (exec : C → M Task S (option Task)) (h : list (C * S))
    : list (event Task) :=
  concat ((λ x, (exec x.1 x.2).2) <$> h).

(** Mutexes the calling thread holds after the effects [tr], having held
    [held] before. *)
Fixpoint held_after (held : list mutex) (tr : list (event Task)) : list mutex :=
  match tr with
  | [] => held
  | Lock m :: tr' => held_after (m :: held) tr'
  | Unlock m :: tr' => held_after (remove mutex_eq_dec m held) tr'
  | _ :: tr' => held_after held tr'
  end.

(** Every pair (outer, inner) such that [inner] is acquired while
    [outer] is held. *)
Fixpoint nestings (held : list mutex) (tr : list (event Task)) : list (mutex * mutex) :=
  match tr with
  | [] => []
  | Lock m :: tr' => ((λ h, (h, m)) <$> held) ++ nestings (m :: held) tr'
  | Unlock m :: tr' => nestings (remove mutex_eq_dec m held) tr'
  | _ :: tr' => nestings held tr'
  end.
End Calls.

Section Methods.
Context {Task A P : Type} `{!TaskSource Task P}.

(** A call of a member function of a concrete queue class; [A] is what its
    [add_task] takes. *)
Inductive call :=
  | AddTask (a : A)
  | GetNextTask
  | Size
  | Notify
  | MaxThreads
  | ActiveThreads
  | JoinAllPass
  | WorkerThreadComplete (worker_id : Z).

(** The call as a computation that answers the task it hands back to its
    caller, if any; [add_task] and [size] are those of the class. *)
Definition exec (add_task : A → M Task (object Task P) unit)
    (size : M Task (object Task P) Z) (c : call)
    : M Task (object Task P) (option Task) :=
  match c with
  | AddTask a => add_task a;; mret None
  | GetNextTask => in_derived get_next_task
  | Size => size;; mret None
  | Notify => notify;; mret None
  | MaxThreads => in_base WorkQueue.max_threads;; mret None
  | ActiveThreads => in_base WorkQueue.active_threads;; mret None
  | JoinAllPass => in_base WorkQueue.join_all_pass;; mret None
  | WorkerThreadComplete worker_id =>
      in_base (WorkQueue.worker_thread_complete worker_id);; mret None
  end.

(** [worker_thread_complete] is private: only a worker thread calls it. *)
Definition public (c : call) : bool :=
  match c with
  | WorkerThreadComplete _ => false
  | _ => true
  end.

(** The four calls that stay within the base class. *)
Definition base_call (c : call) : option (M Task (WorkQueue.t Task) unit) :=
  match c with
  | MaxThreads => Some (WorkQueue.max_threads;; mret tt)
  | ActiveThreads => Some (WorkQueue.active_threads;; mret tt)
  | JoinAllPass => Some (WorkQueue.join_all_pass;; mret tt)
  | WorkerThreadComplete worker_id => Some (WorkQueue.worker_thread_complete worker_id)
  | _ => None
  end.

(** What [cs] passes to [add_task], in call order. *)
Definition submitted (cs : list call) : list A :=
  omap (λ c, match c with AddTask a => Some a | _ => None end) cs.
End Methods.
Global Arguments call : clear implicits.

Definition fifo_exec {Task : Type}
  : call Task → M Task (object Task (FifoWorkQueue.t Task)) (option Task) :=
  exec FifoWorkQueue.add_task FifoWorkQueue.size.

Definition ordered_exec {Task : Type}
  : call (Task * Z) → M Task (object Task (OrderedWorkQueue.t Task)) (option Task) :=
  exec (λ a, OrderedWorkQueue.add_task a.1 a.2) OrderedWorkQueue.size.

(** ** Specification-level notions *)

Section Notions.
Context {Task P : Type} `{!TaskSource Task P}.
Import WorkQueue.

(** The bookkeeping invariant of the slot table. *)
Definition slot_invariant (q : WorkQueue.t Task) : Prop :=
  0 ≤ m_active_workers q ≤ m_max_workers q ∧
  Z.of_nat (length (m_available_thread_ids q)) + m_active_workers q = m_max_workers q.

(** Slot [worker_id] is free: its ID is in the free list. *)
Definition slot_free (q : WorkQueue.t Task) (worker_id : Z) : Prop :=
  worker_id ∈ m_available_thread_ids q.

(** What the slot table of a constructed queue satisfies besides
    [slot_invariant]: the vector has one entry per slot, the free IDs are
    distinct slots whose entry is empty, and the worker in entry [i] carries
    the ID [i]. *)
Definition consistent (q : WorkQueue.t Task) : Prop :=
  is_int (m_max_workers q) ∧
  slot_invariant q ∧
  Z.of_nat (length (m_running_threads q)) = m_max_workers q ∧
  NoDup (m_available_thread_ids q) ∧
  (∀ id, id ∈ m_available_thread_ids q →
         0 ≤ id < m_max_workers q ∧ m_running_threads q !! Z.to_nat id = Some None) ∧
  (∀ i w, m_running_threads q !! i = Some (Some w) → m_thread_id w = Z.of_nat i).

(** The range test of the assertion in [worker_thread_complete]. *)
Definition id_in_table (worker_id : Z) (q : WorkQueue.t Task) : bool :=
  (0 <=? worker_id) && (worker_id <? to_int (Z.of_nat (length (m_running_threads q)))).

(** One iteration of the loop body of [notify], on the base fields. *)
Definition dispatch_one (id : Z) (rest : list Z) (task : Task) (q : WorkQueue.t Task)
    : WorkQueue.t Task :=
  set_active (to_int (m_active_workers q + 1))
    (set_running id (Some {| m_task := task; m_thread_id := id |})
       (set_available rest q)).

(** The moves of a queue object.  [notify] may run at any time; a worker
    thread that is in the slot table may finish, and then calls
    [worker_thread_complete] with its own [m_thread_id]; producers and
    polling workers change the fields of the derived class. *)
Inductive step : object Task P → object Task P → Prop :=
  | step_notify o :
      step o (notify o).1.2
  | step_complete o i w :
      m_running_threads (base o) !! i = Some (Some w) →
      step o (in_base (worker_thread_complete (m_thread_id w)) o).1.2
  | step_derived o p :
      step o {| base := base o; derived := p |}.

(** Poll [get_next_task] up to [n] times, stopping at the first answer
    that is not a task: the tasks obtained, the derived fields after the
    last poll, and how polling ended. *)
Fixpoint drain (n : nat) (p : P) : list Task * P * outcome unit :=
  match n with
  | O => ([], p, Ret tt)
  | S n' =>
      match get_next_task p with
      | (Ret (Some task), p', _) =>
          match drain n' p' with
          | (tasks, p'', r) => (task :: tasks, p'', r)
          end
      | (Ret None, p', _) => ([], p', Ret tt)
      | (Throw e, p', _) => ([], p', Throw e)
      end
  end.

(** [polled p tasks p']: successive calls of [get_next_task], begun on the
    derived fields [p], answer the tasks [tasks] one by one and leave [p']. *)
Inductive polled : P → list Task → P → Prop :=
  | polled_nil p : polled p [] p
  | polled_cons p task p1 tr tasks p2 :
      get_next_task p = (Ret (Some task), p1, tr) →
      polled p1 tasks p2 →
      polled p (task :: tasks) p2.

(** The slot table after the workers in [ws] have been installed. *)
Definition install (ws : list (Z * Task)) (running : list (option (WorkerThread Task)))
    : list (option (WorkerThread Task)) :=
  foldl (λ r w, <[Z.to_nat w.1 := Some {| m_task := w.2; m_thread_id := w.1 |}]> r)
        running ws.
End Notions.

(** What the dispatch loop relies on in an implementation of
    [get_next_task]: it answers without throwing, and the only effect of a
    call is that the mutex of the derived class may be taken and released. *)
Class PollingSource (Task P : Type) `{!TaskSource Task P} := {
  poll_returns (p : P) : ∃ r, (get_next_task p).1.1 = Ret r;
  poll_effects (p : P) :
    (get_next_task p).2 = [] ∨ (get_next_task p).2 = [Lock m_mutex; Unlock m_mutex]
}.

(** Effects that touch nothing but the mutex of the derived class, each
    acquisition released at once, and thread creations. *)
Inductive storage_effects {Task : Type} : list (event Task) → Prop :=
  | storage_effects_nil : storage_effects []
  | storage_effects_poll tr :
      storage_effects tr → storage_effects (Lock m_mutex :: Unlock m_mutex :: tr)
  | storage_effects_spawn thread_id task tr :
      storage_effects tr → storage_effects (Spawn thread_id task :: tr).

(** The effects a single call can have: those of a call that stays in the
    base class, accesses to the pending tasks alone, or such accesses
    followed by a dispatch loop run under [m_queue_mutex]. *)
Definition call_effects {Task : Type} (tr : list (event Task)) : Prop :=
  tr = [Lock m_queue_mutex; Unlock m_queue_mutex] ∨
  tr = [Lock m_queue_mutex; NotifyAll; Unlock m_queue_mutex] ∨
  tr = [Lock m_queue_mutex; Unlock m_queue_mutex; Wait;
        Lock m_queue_mutex; Unlock m_queue_mutex] ∨
  ∃ tr1 tr2, storage_effects tr1 ∧ storage_effects tr2 ∧
             (tr = tr1 ∨ tr = tr1 ++ Lock m_queue_mutex :: tr2 ++ [Unlock m_queue_mutex]).

(** The only nesting the code is found to perform: [m_mutex] acquired
    while [m_queue_mutex] is held. *)
Definition queue_then_storage (n : mutex * mutex) : Prop :=
  n = (m_queue_mutex, m_mutex).

(** Indices that can be released without overflowing [m_next_index]: the
    values of an [int] other than INT_MAX. *)
Definition releasable (index : Z) : Prop := INT_MIN ≤ index < INT_MAX.

Definition keys_releasable {A} (m : gmap Z A) : Prop :=
  ∀ k, is_Some (m !! k) → releasable k.

(** [k] is the least key of [m]. *)
Definition is_min_key {A} (m : gmap Z A) (k : Z) : Prop :=
  is_Some (m !! k) ∧ ∀ k', is_Some (m !! k') → k ≤ k'.

(** ** Joining and worker threads *)

Section Joining.
Context {Task : Type}.
Import WorkQueue.



(** The worker threads found in the slot table. *)
Definition workers_in_table (q : WorkQueue.t Task) : list (WorkerThread Task) :=
  omap id (m_running_threads q).
End Joining.

(** The effects of a thread that, for each task of [ts] in turn, polls it
    from the queue under [m_mutex] and runs it with the effects
    [effects task]. *)
Definition polled_and_run {Task : Type} (effects : Task → list (event Task))
    (ts : list Task) : list (event Task) :=
  concat ((λ task, [Lock m_mutex; Unlock m_mutex] ++ effects task) <$> ts).

Section Worker.
Context {Task P : Type} `{!TaskSource Task P}.
Import WorkQueue.

(** The call [m_task->operator()]: what running a task does, seen from the
    queue object.
    [struct Task] leaves [operator()] pure virtual, so it is a parameter. *)
Variable invoke : Task → M Task (object Task P) unit.

(** The [while] loop of [WorkerThread::operator()]: poll the queue and run
    what it hands out, until it hands out nothing.  The source loop has no
    bound; [fuel] bounds the number of polls, and the answer tells whether
    the loop has ended ([true]) or the bound was reached first ([false]). *)
Fixpoint worker_loop (fuel : nat) : M Task (object Task P) bool :=
  match fuel with
  | O => mret false
  | S fuel' =>
      task ← in_derived get_next_task;
      match task with
      | None => mret true
      | Some task => invoke task;; worker_loop fuel'
      end
  end.

(** [WorkerThread::operator()]: the initial task, the loop, and then the
    report to the queue.  An exception that leaves a task leaves the
    function: nothing in it catches one. *)
Definition worker_run (fuel : nat) (w : WorkerThread Task) : M Task (object Task P) bool :=
  invoke (m_task w);;
  ended ← worker_loop fuel;
  if ended : bool
  then in_base (worker_thread_complete (m_thread_id w));; mret true
  else mret false.
End Worker.

(** The locked block of [OrderedWorkQueue::add_task]: the assignment
    [m_queued_tasks[index] = task], on the fields of the derived class. *)
Definition ordered_store {Task : Type} (a : Task * Z) (p : OrderedWorkQueue.t Task)
    : OrderedWorkQueue.t Task :=
  {| OrderedWorkQueue.m_queued_tasks := <[a.2 := a.1]> (OrderedWorkQueue.m_queued_tasks p);
     OrderedWorkQueue.m_next_index := OrderedWorkQueue.m_next_index p |}.

(** The pending tasks a call starts polling from: those of the object,
    after the store when the call is an [add_task]. *)
Definition ordered_stored {Task : Type} (c : call (Task * Z)) (p : OrderedWorkQueue.t Task)
    : OrderedWorkQueue.t Task :=
  match c with
  | AddTask a => ordered_store a p
  | _ => p
  end.

(** The slot table and the free list describe each other exactly: besides
    [consistent], the counter is the number of workers in the table and
    every slot whose entry is empty is in the free list. *)
Definition slot_table_exact {Task : Type} (q : WorkQueue.t Task) : Prop :=
  consistent q ∧
  Z.of_nat (length (workers_in_table q)) = WorkQueue.m_active_workers q ∧
  (∀ id, 0 ≤ id < WorkQueue.m_max_workers q →
         WorkQueue.m_running_threads q !! Z.to_nat id = Some None →
         id ∈ WorkQueue.m_available_thread_ids q).

(** * Properties *)

(** ** Machine integers *)

Lemma to_int_id z : is_int z → to_int z = z.
Proof.
  unfold is_int, to_int, INT_MIN, INT_MAX. intros Hz.
  rewrite Z.mod_small; lia.
Qed.

Lemma to_int_succ z : INT_MIN ≤ z < INT_MAX → to_int (z + 1) = z + 1.
Proof. intros Hz. apply to_int_id. unfold is_int, INT_MIN, INT_MAX in *. lia. Qed.

Lemma to_int_pred z : INT_MIN < z ≤ INT_MAX → to_int (z - 1) = z - 1.
Proof. intros Hz. apply to_int_id. unfold is_int, INT_MIN, INT_MAX in *. lia. Qed.

Lemma to_size_t_nonneg z : is_int z → 0 ≤ z → to_size_t z = z.
Proof.
  unfold is_int, to_size_t, INT_MAX, SIZE_MAX. intros Hz Hpos.
  rewrite Z.mod_small; lia.
Qed.

Lemma to_size_t_neg z : is_int z → z < 0 → to_size_t z = z + (SIZE_MAX + 1).
Proof.
  unfold is_int, to_size_t, INT_MIN, SIZE_MAX. intros Hz Hneg.
  symmetry. apply (Z.mod_unique_pos _ _ (-1)); lia.
Qed.

Lemma vector_max_size_eq : vector_max_size = 576460752303423487.
Proof. reflexivity. Qed.

(** ** The least entry of a map *)

Section MapBegin.
Context {Task : Type}.
Implicit Types (m : gmap Z Task) (k : Z) (t : Task) (l : list (Z * Task)).
Local Abbreviation least_of := OrderedWorkQueue.least_of.
Local Abbreviation map_begin := OrderedWorkQueue.map_begin.

Lemma least_of_nil_iff l : least_of l = None ↔ l = [].
Proof.
  destruct l as [|kv l]; [done|]. simpl.
  split; [|done]. destruct (least_of l) as [kv'|]; [|done].
  by destruct (kv.1 <? kv'.1).
Qed.

Lemma least_of_Some l kv :
  least_of l = Some kv → kv ∈ l ∧ ∀ kv', kv' ∈ l → kv.1 ≤ kv'.1.
Proof.
  revert kv. induction l as [|x l IH]; intros kv; [done|]. simpl.
  destruct (least_of l) as [y|] eqn:Hl.
  - destruct (IH y eq_refl) as [Hy Hmin].
    destruct (Z.ltb_spec x.1 y.1) as [Hlt|Hge]; intros [= <-].
    + split; [apply elem_of_cons; by left|].
      intros kv' [->|Hin]%elem_of_cons; [lia|]. specialize (Hmin _ Hin). lia.
    + split; [apply elem_of_cons; by right|].
      intros kv' [->|Hin]%elem_of_cons; [lia|]. by apply Hmin.
  - apply least_of_nil_iff in Hl as ->. intros [= <-].
    split; [apply elem_of_cons; by left|].
    intros kv' [->|Hin]%elem_of_cons; [lia|]. by apply elem_of_nil in Hin.
Qed.

Lemma map_begin_None m : map_begin m = None ↔ m = ∅.
Proof.
  unfold OrderedWorkQueue.map_begin.
  rewrite least_of_nil_iff. apply map_to_list_empty_iff.
Qed.

Lemma map_begin_Some m k t :
  map_begin m = Some (k, t) → m !! k = Some t ∧ is_min_key m k.
Proof.
  unfold OrderedWorkQueue.map_begin.
  intros [Hin Hmin]%least_of_Some. apply elem_of_map_to_list in Hin.
  split; [done|]. split; [by exists t|].
  intros k' [t' Ht']. apply (Hmin (k', t')). by apply elem_of_map_to_list.
Qed.

Lemma is_min_key_unique m k k' : is_min_key m k → is_min_key m k' → k = k'.
Proof. intros [Hk Hmin] [Hk' Hmin']. specialize (Hmin _ Hk'). specialize (Hmin' _ Hk). lia. Qed.

Lemma map_begin_min_key m k t :
  is_min_key m k → m !! k = Some t → map_begin m = Some (k, t).
Proof.
  intros Hmin Hk. destruct (map_begin m) as [[k' t']|] eqn:Hb.
  - apply map_begin_Some in Hb as [Hk' Hmin'].
    assert (k' = k) as -> by eauto using is_min_key_unique. congruence.
  - apply map_begin_None in Hb as ->. by rewrite lookup_empty in Hk.
Qed.

Lemma map_size_zero_iff m : (Z.of_nat (size m) =? 0) = true ↔ m = ∅.
Proof. rewrite Z.eqb_eq, <-map_size_empty_iff. lia. Qed.
End MapBegin.

(** ** Running the monad *)

Ltac exec_m :=
  unfold in_base, in_derived, mbind, mret, M_bind, M_ret, VW_ASSERT, zoom,
    scoped_lock, bind, ret, get, put, emit, throw in *;
  simpl in *.

(** ** OrderedWorkQueue::get_next_task *)

Section OrderedGetNextTask.
Context {Task : Type}.
Implicit Types (s : OrderedWorkQueue.t Task) (k : Z) (task : Task).

Lemma ordered_get_next_task_empty s :
  OrderedWorkQueue.m_queued_tasks s = ∅ →
  OrderedWorkQueue.get_next_task s = (Ret None, s, []).
Proof.
  intros Hm. unfold OrderedWorkQueue.get_next_task. exec_m.
  apply (map_size_zero_iff (Task:=Task)) in Hm. by rewrite Hm.
Qed.

Lemma ordered_get_next_task_gap s k :
  is_min_key (OrderedWorkQueue.m_queued_tasks s) k →
  k ≠ OrderedWorkQueue.m_next_index s →
  OrderedWorkQueue.get_next_task s = (Ret None, s, [Lock m_mutex; Unlock m_mutex]).
Proof.
  intros Hmin Hne. pose proof Hmin as [[task Hk] _].
  unfold OrderedWorkQueue.get_next_task. exec_m.
  destruct (Z.of_nat (size (OrderedWorkQueue.m_queued_tasks s)) =? 0) eqn:Hsz.
  { apply map_size_zero_iff in Hsz. rewrite Hsz in Hk. by rewrite lookup_empty in Hk. }
  rewrite (map_begin_min_key _ _ _ Hmin Hk).
  destruct (Z.eqb_spec k (OrderedWorkQueue.m_next_index s)); [done|]. done.
Qed.

Lemma ordered_get_next_task_release s k task :
  is_min_key (OrderedWorkQueue.m_queued_tasks s) k →
  OrderedWorkQueue.m_queued_tasks s !! k = Some task →
  k = OrderedWorkQueue.m_next_index s →
  OrderedWorkQueue.get_next_task s =
    (Ret (Some task),
     {| OrderedWorkQueue.m_queued_tasks := delete k (OrderedWorkQueue.m_queued_tasks s);
        OrderedWorkQueue.m_next_index := to_int (OrderedWorkQueue.m_next_index s + 1) |},
     [Lock m_mutex; Unlock m_mutex]).
Proof.
  intros Hmin Hk ->.
  unfold OrderedWorkQueue.get_next_task. exec_m.
  destruct (Z.of_nat (size (OrderedWorkQueue.m_queued_tasks s)) =? 0) eqn:Hsz.
  { apply map_size_zero_iff in Hsz. rewrite Hsz in Hk. by rewrite lookup_empty in Hk. }
  rewrite (map_begin_min_key _ _ _ Hmin Hk).
  by rewrite Z.eqb_refl.
Qed.

(** Whatever the state, the call ends in one of the three ways. *)
Lemma ordered_get_next_task_cases s :
  let m := OrderedWorkQueue.m_queued_tasks s in
  let next := OrderedWorkQueue.m_next_index s in
  (m = ∅ ∧ OrderedWorkQueue.get_next_task s = (Ret None, s, [])) ∨
  (∃ k, is_min_key m k ∧ k ≠ next ∧
        OrderedWorkQueue.get_next_task s = (Ret None, s, [Lock m_mutex; Unlock m_mutex])) ∨
  (∃ task, is_min_key m next ∧ m !! next = Some task ∧
        OrderedWorkQueue.get_next_task s =
          (Ret (Some task),
           {| OrderedWorkQueue.m_queued_tasks := delete next m;
              OrderedWorkQueue.m_next_index := to_int (next + 1) |},
           [Lock m_mutex; Unlock m_mutex])).
Proof.
  intros m next. destruct (OrderedWorkQueue.map_begin m) as [[k task]|] eqn:Hb.
  - apply map_begin_Some in Hb as [Hk Hmin]. right.
    destruct (decide (k = next)) as [->|Hne].
    + right. exists task. eauto using ordered_get_next_task_release.
    + left. exists k. eauto using ordered_get_next_task_gap.
  - apply map_begin_None in Hb. left. eauto using ordered_get_next_task_empty.
Qed.

(** C1. get_next_task of an OrderedWorkQueue answers "none" when the pending
    map is empty, answers "none" when the least pending key differs from
    next_index, and otherwise erases the entry at the least key, adds 1 to
    next_index and answers that entry's task.  The increment is the one of
    an int, so it is a mathematical +1 on every next_index below INT_MAX. *)
Theorem ordered_get_next_task_spec s :
  let m := OrderedWorkQueue.m_queued_tasks s in
  let next := OrderedWorkQueue.m_next_index s in
  (m = ∅ → OrderedWorkQueue.get_next_task s = (Ret None, s, [])) ∧
  (∀ k, is_min_key m k → k ≠ next →
     OrderedWorkQueue.get_next_task s = (Ret None, s, [Lock m_mutex; Unlock m_mutex])) ∧
  (∀ k task, is_min_key m k → m !! k = Some task → k = next →
     INT_MIN ≤ next < INT_MAX →
     OrderedWorkQueue.get_next_task s =
       (Ret (Some task),
        {| OrderedWorkQueue.m_queued_tasks := delete k m;
           OrderedWorkQueue.m_next_index := next + 1 |},
        [Lock m_mutex; Unlock m_mutex])).
Proof.
  intros m next. split_and!.
  - apply ordered_get_next_task_empty.
  - apply ordered_get_next_task_gap.
  - intros k task Hmin Hk Heq Hnext.
    rewrite (ordered_get_next_task_release s k task Hmin Hk Heq).
    subst next. by rewrite to_int_succ.
Qed.
End OrderedGetNextTask.

(** ** Effects of the calls *)

Section Traces.
Context {Task : Type}.
Implicit Types (tr : list (event Task)) (held : list mutex).

Lemma spawned_app tr1 tr2 : spawned (tr1 ++ tr2) = spawned tr1 ++ spawned tr2.
Proof.
  induction tr1 as [|e tr1 IH]; [done|].
  destruct e; simpl; by rewrite ?IH.
Qed.

Lemma held_after_app held tr1 tr2 :
  held_after held (tr1 ++ tr2) = held_after (held_after held tr1) tr2.
Proof.
  revert held. induction tr1 as [|e tr1 IH]; intros held; [done|].
  destruct e; simpl; by rewrite ?IH.
Qed.

Lemma nestings_app held tr1 tr2 :
  nestings held (tr1 ++ tr2) = nestings held tr1 ++ nestings (held_after held tr1) tr2.
Proof.
  revert held. induction tr1 as [|e tr1 IH]; intros held; [done|].
  destruct e; simpl; rewrite ?IH; by rewrite <-?(assoc_L (++)).
Qed.

(** While only [m_queue_mutex] is held, such effects nest [m_mutex] inside
    it and nothing else, and leave the held set as it was. *)
Lemma storage_effects_under_queue_mutex tr :
  storage_effects tr →
  held_after [m_queue_mutex] tr = [m_queue_mutex] ∧
  Forall (λ n, n = (m_queue_mutex, m_mutex)) (nestings [m_queue_mutex] tr).
Proof.
  induction 1 as [|tr _ [IH1 IH2]|i t tr _ [IH1 IH2]]; simpl.
  - by split.
  - split; [done|]. by constructor.
  - by split.
Qed.

(** With no mutex held they nest nothing. *)
Lemma storage_effects_unlocked tr :
  storage_effects tr → held_after [] tr = [] ∧ nestings [] tr = [].
Proof. induction 1 as [|tr _ [IH1 IH2]|i t tr _ [IH1 IH2]]; simpl; by split. Qed.
End Traces.

(** ** The dispatch loop *)

Section DispatchLoop.
Context {Task P : Type} `{!TaskSource Task P}.
Import WorkQueue.
Implicit Types (o : object Task P) (ids : list Z) (q : WorkQueue.t Task).

(** The loop in closed form: the tasks are those [drain] obtains, the
    [j]-th of them goes to the [j]-th free slot, and the counter is
    incremented once per task. *)
Lemma notify_loop_closed ids o :
  m_available_thread_ids (base o) = ids →
  ∃ tasks p' r tr,
    drain (length ids) (derived o) = (tasks, p', r) ∧
    (length tasks ≤ length ids)%nat ∧
    notify_loop ids o =
      (r,
       {| base :=
            {| m_active_workers :=
                 Nat.iter (length tasks) (λ a, to_int (a + 1)) (m_active_workers (base o));
               m_max_workers := m_max_workers (base o);
               m_running_threads := install (zip ids tasks) (m_running_threads (base o));
               m_available_thread_ids := drop (length tasks) ids |};
          derived := p' |},
       tr).
Proof.
  revert o. induction ids as [|id rest IH]; intros [q p] Hids; simpl in *.
  { exists [], p, (Ret tt), []. split_and!; [done..|]. exec_m. destruct q; simpl in *. by subst. }
  exec_m. destruct (get_next_task p) as [[[[task|]|e] p1] tr1] eqn:Hpoll; simpl.
  - destruct (IH {| base := set_active (to_int (m_active_workers q + 1))
                              (set_running id (Some {| m_task := task; m_thread_id := id |})
                                 (set_available rest q));
                    derived := p1 |} eq_refl)
      as (tasks & p' & r & tr & Hdrain & Hlen & Hloop).
    simpl in *. rewrite Hdrain.
    eexists (task :: tasks), p', r, _. split_and!; [done|simpl; lia|].
    rewrite Hloop. change (length (task :: tasks)) with (S (length tasks)).
    by rewrite Nat.iter_succ_r.
  - exists [], p1, (Ret tt), (tr1 ++ []). split_and!; [done|simpl; lia|].
    destruct q; simpl in *. by subst.
  - exists [], p1, (Throw e), tr1. split_and!; [done|simpl; lia|].
    destruct q; simpl in *. by subst.
Qed.

Context `{!PollingSource Task P}.

Lemma drain_returns n (p : P) : (drain n p).2 = Ret tt.
Proof.
  revert p. induction n as [|n IH]; intros p; [done|]. simpl.
  destruct (poll_returns p) as [r Hr].
  destruct (get_next_task p) as [[[[task|]|e] p1] tr1]; simpl in *; [|done..].
  specialize (IH p1). by destruct (drain n p1) as [[tasks p2] r2].
Qed.

Lemma notify_loop_effects ids o :
  storage_effects (notify_loop ids o).2 ∧
  spawned (notify_loop ids o).2 = zip ids (drain (length ids) (derived o)).1.1.
Proof.
  revert o. induction ids as [|id rest IH]; intros [q p]; simpl.
  { split; [constructor|done]. }
  exec_m. pose proof (poll_effects p) as Heff.
  destruct (get_next_task p) as [[[[task|]|e] p1] tr1] eqn:Hpoll; simpl in *.
  - match goal with
    | |- context [notify_loop rest ?o'] =>
        destruct (IH o') as [IH1 IH2]; destruct (notify_loop rest o') as [[r2 o2] tr2]
    end.
    simpl in *. destruct (drain (length rest) p1) as [[tasks p2] r3]; simpl in *.
    destruct Heff as [->| ->]; simpl; rewrite IH2; split; eauto using @storage_effects.
  - destruct Heff as [->| ->]; simpl; split; eauto using @storage_effects.
  - destruct Heff as [->| ->]; simpl; split; eauto using @storage_effects.
Qed.

(** [notify] in closed form. *)
Lemma notify_closed o :
  let q := base o in
  let ids := m_available_thread_ids q in
  ∃ tasks p' tr,
    drain (length ids) (derived o) = (tasks, p', Ret tt) ∧
    (length tasks ≤ length ids)%nat ∧
    storage_effects tr ∧
    spawned tr = zip ids tasks ∧
    notify o =
      (Ret tt,
       {| base :=
            {| m_active_workers :=
                 Nat.iter (length tasks) (λ a, to_int (a + 1)) (m_active_workers q);
               m_max_workers := m_max_workers q;
               m_running_threads := install (zip ids tasks) (m_running_threads q);
               m_available_thread_ids := drop (length tasks) ids |};
          derived := p' |},
       Lock m_queue_mutex :: tr ++ [Unlock m_queue_mutex]).
Proof.
  intros q ids.
  destruct (notify_loop_closed ids o eq_refl) as (tasks & p' & r & tr & Hdrain & Hlen & Hloop).
  pose proof (drain_returns (length ids) (derived o)) as Hr.
  pose proof (notify_loop_effects ids o) as [Heff Hsp].
  rewrite Hdrain in Hr, Hsp. rewrite Hloop in Heff, Hsp. simpl in *. subst r.
  exists tasks, p', tr. split_and!; [done..|].
  unfold notify, scoped_lock, mbind, M_bind, bind, get.
  fold q. fold ids. by rewrite Hloop.
Qed.

Lemma notify_returns o : (notify o).1.1 = Ret tt.
Proof. by destruct (notify_closed o) as (tasks & p' & tr & _ & _ & _ & _ & ->). Qed.

(** Without overflow the counter grows by the number of tasks. *)
Lemma iter_incr (k : nat) (a : Z) :
  INT_MIN ≤ a → a + Z.of_nat k ≤ INT_MAX →
  Nat.iter k (λ a, to_int (a + 1)) a = a + Z.of_nat k.
Proof.
  induction k as [|k IH]; intros Hlo Hhi; simpl; [lia|].
  rewrite IH by lia. rewrite to_int_succ; lia.
Qed.
End DispatchLoop.

(** ** The two implementations of get_next_task *)

Section Sources.
Context {Task : Type}.

Lemma fifo_get_next_task_nil (s : FifoWorkQueue.t Task) :
  FifoWorkQueue.m_queued_tasks s = [] →
  FifoWorkQueue.get_next_task s = (Ret None, s, [Lock m_mutex; Unlock m_mutex]).
Proof. intros Hs. unfold FifoWorkQueue.get_next_task. exec_m. by rewrite Hs. Qed.

Lemma fifo_get_next_task_cons (s : FifoWorkQueue.t Task) task rest :
  FifoWorkQueue.m_queued_tasks s = task :: rest →
  FifoWorkQueue.get_next_task s =
    (Ret (Some task), {| FifoWorkQueue.m_queued_tasks := rest |},
     [Lock m_mutex; Unlock m_mutex]).
Proof. intros Hs. unfold FifoWorkQueue.get_next_task. exec_m. by rewrite Hs. Qed.

Global Instance fifo_polling : PollingSource Task (FifoWorkQueue.t Task).
Proof.
  split; intros [[|task rest]].
  - exists None. unfold get_next_task, FifoWorkQueue.task_source.
    by rewrite (fifo_get_next_task_nil {| FifoWorkQueue.m_queued_tasks := [] |} eq_refl).
  - exists (Some task). unfold get_next_task, FifoWorkQueue.task_source.
    by rewrite (fifo_get_next_task_cons {| FifoWorkQueue.m_queued_tasks := task :: rest |} task rest eq_refl).
  - right. unfold get_next_task, FifoWorkQueue.task_source.
    by rewrite (fifo_get_next_task_nil {| FifoWorkQueue.m_queued_tasks := [] |} eq_refl).
  - right. unfold get_next_task, FifoWorkQueue.task_source.
    by rewrite (fifo_get_next_task_cons {| FifoWorkQueue.m_queued_tasks := task :: rest |} task rest eq_refl).
Qed.

Global Instance ordered_polling : PollingSource Task (OrderedWorkQueue.t Task).
Proof.
  split; intros s; unfold get_next_task, OrderedWorkQueue.task_source;
    destruct (ordered_get_next_task_cases s)
      as [[_ ->]|[(k & _ & _ & ->)|(task & _ & _ & ->)]]; simpl; eauto.
Qed.
End Sources.

(** ** WorkQueue::notify *)

Section Notify.
Context {Task P : Type} `{!TaskSource Task P} `{!PollingSource Task P}.
Import WorkQueue.
Implicit Types (o : object Task P) (p : P).

Lemma drain_polled n p tasks p' :
  drain n p = (tasks, p', Ret tt) →
  ∃ p1, polled p tasks p1 ∧
        ((length tasks = n ∧ p' = p1) ∨
         ((length tasks < n)%nat ∧ ∃ tr, get_next_task p1 = (Ret None, p', tr))).
Proof.
  revert p tasks. induction n as [|n IH]; intros p tasks; simpl.
  { intros [= <- <-]. exists p. split; [constructor|by left]. }
  destruct (get_next_task p) as [[[[task|]|e] p1] tr1] eqn:Hpoll.
  - destruct (drain n p1) as [[tasks2 p2] r2] eqn:Hdrain. intros [= <- <- ->].
    destruct (IH _ _ Hdrain) as (p3 & Hpolled & Hend).
    exists p3. split; [by econstructor|]. simpl.
    destruct Hend as [[<- ->]|[Hlt Hnone]]; [by left|right]. split; [lia|done].
  - intros [= <- <-]. exists p. split; [constructor|right].
    split; [simpl; lia|by exists tr1].
  - done.
Qed.

(** With an empty free list the loop condition fails on its first test:
    [get_next_task] is not evaluated and nothing changes. *)
Lemma notify_no_free_slot_eq o :
  m_available_thread_ids (base o) = [] →
  notify o = (Ret tt, o, [Lock m_queue_mutex; Unlock m_queue_mutex]).
Proof.
  intros Hnil. unfold notify, scoped_lock, mbind, M_bind, bind, get.
  rewrite Hnil. by destruct o.
Qed.

(** C2. notify takes tasks from get_next_task one after the other and, for
    each, removes the front free slot ID, installs in that slot a new
    WorkerThread bound to the slot and the task, and adds 1 to
    active_workers.  It stops when the free list is used up (get_next_task
    is then not called again) or at the first "none", which is not retried.
    The counters are those of every queue in which the active workers and
    the free slots together fit an int. *)
Theorem notify_dispatches o :
  let q := base o in
  let ids := m_available_thread_ids q in
  (ids = [] → notify o = (Ret tt, o, [Lock m_queue_mutex; Unlock m_queue_mutex])) ∧
  (INT_MIN ≤ m_active_workers q →
   m_active_workers q + Z.of_nat (length ids) ≤ INT_MAX →
   ∃ tasks p1 p' tr,
     polled (derived o) tasks p1 ∧
     ((length tasks = length ids ∧ p' = p1) ∨
      ((length tasks < length ids)%nat ∧ ∃ tr', get_next_task p1 = (Ret None, p', tr'))) ∧
     spawned tr = zip ids tasks ∧
     notify o =
       (Ret tt,
        {| base :=
             {| m_active_workers := m_active_workers q + Z.of_nat (length tasks);
                m_max_workers := m_max_workers q;
                m_running_threads := install (zip ids tasks) (m_running_threads q);
                m_available_thread_ids := drop (length tasks) ids |};
           derived := p' |},
        Lock m_queue_mutex :: tr ++ [Unlock m_queue_mutex])).
Proof.
  intros q ids. split; [apply notify_no_free_slot_eq|].
  intros Hlo Hhi. subst q ids.
  destruct (notify_closed o) as (tasks & p' & tr & Hdrain & Hlen & _ & Hsp & Hnotify).
  destruct (drain_polled _ _ _ _ Hdrain) as (p1 & Hpolled & Hend).
  exists tasks, p1, p', tr. split_and!; [done..|].
  rewrite Hnotify, iter_incr; [done|done|lia].
Qed.
End Notify.

(** ** The slot bookkeeping invariant *)

Section SlotInvariant.
Context {Task P : Type} `{!TaskSource Task P}.
Import WorkQueue.
Implicit Types (o : object Task P) (q : WorkQueue.t Task) (ids : list Z).

Lemma notify_loop_invariant (Inv : WorkQueue.t Task → Prop) :
  (∀ q id rest task,
      Inv q → m_available_thread_ids q = id :: rest → Inv (dispatch_one id rest task q)) →
  ∀ ids o, m_available_thread_ids (base o) = ids → Inv (base o) →
           Inv (base (notify_loop ids o).1.2).
Proof.
  intros Hstep ids. induction ids as [|id rest IH]; intros [q p] Hids Hinv; [done|].
  simpl in *. exec_m.
  destruct (get_next_task p) as [[[[task|]|e] p1] tr1] eqn:Hpoll; simpl; [|done..].
  match goal with
  | |- context [notify_loop rest ?o'] =>
      specialize (IH o' eq_refl (Hstep _ _ _ task Hinv Hids));
      destruct (notify_loop rest o') as [[r2 o2] tr2]
  end.
  done.
Qed.

Lemma notify_invariant (Inv : WorkQueue.t Task → Prop) :
  (∀ q id rest task,
      Inv q → m_available_thread_ids q = id :: rest → Inv (dispatch_one id rest task q)) →
  ∀ o, Inv (base o) → Inv (base (notify o).1.2).
Proof.
  intros Hstep o Hinv.
  pose proof (notify_loop_invariant Inv Hstep _ o eq_refl Hinv) as H.
  unfold notify, scoped_lock, mbind, M_bind, bind, get.
  by destruct (notify_loop (m_available_thread_ids (base o)) o) as [[r2 o2] tr2].
Qed.

Lemma ctor_consistent (n : Z) :
  is_int n → 0 ≤ n → ∃ q, WorkQueue.ctor n = Ret q ∧ consistent q.
Proof.
  intros Hint Hpos. unfold WorkQueue.ctor. rewrite (to_size_t_nonneg n) by done.
  destruct (Z.ltb_spec vector_max_size n) as [Hbig|_].
  { rewrite vector_max_size_eq in Hbig. unfold is_int, INT_MAX in *. lia. }
  eexists. split; [done|]. unfold consistent, slot_invariant. simpl.
  rewrite length_seqZ, length_replicate. split_and!; try lia; try done.
  - apply NoDup_seqZ.
  - intros id Hid%elem_of_seqZ. split; [lia|].
    apply lookup_replicate. split; [done|lia].
  - intros i w [Hw _]%lookup_replicate. done.
Qed.

Lemma consistent_dispatch_one q id rest task :
  consistent q → m_available_thread_ids q = id :: rest →
  consistent (dispatch_one id rest task q).
Proof.
  intros (Hmax & [Hact Hsum] & Hlen & Hnodup & Hfree & Hown) Hids.
  rewrite Hids in Hsum, Hnodup, Hfree. simpl in Hsum.
  apply NoDup_cons in Hnodup as [Hid Hnodup].
  destruct (Hfree id) as [Hrange _]; [apply elem_of_cons; by left|].
  unfold consistent, slot_invariant, dispatch_one. simpl.
  rewrite length_insert.
  rewrite to_int_succ by (unfold is_int, INT_MIN, INT_MAX in *; lia).
  split_and!; try lia; try done.
  - intros id' Hid'. destruct (Hfree id') as [Hrange' Hnone]; [apply elem_of_cons; by right|].
    split; [done|]. rewrite list_lookup_insert_ne; [done|].
    intros Heq. apply Hid. replace id with id' by lia. done.
  - intros i w. destruct (decide (i = Z.to_nat id)) as [->|Hne].
    + rewrite list_lookup_insert_eq by lia. intros [= <-]. simpl. lia.
    + rewrite list_lookup_insert_ne by done. apply Hown.
Qed.

Lemma free_slots_bounded (l : list Z) (n : Z) :
  NoDup l → (∀ id, id ∈ l → 0 ≤ id < n) → Z.of_nat (length l) ≤ Z.max 0 n.
Proof.
  intros Hnodup Hin.
  assert (l ⊆+ seqZ 0 n) as Hsub.
  { apply NoDup_submseteq; [done|]. intros id Hid. apply elem_of_seqZ. specialize (Hin _ Hid). lia. }
  apply submseteq_length in Hsub. rewrite length_seqZ in Hsub. lia.
Qed.

(** A worker found in the slot table reports completion under its own ID. *)
Lemma consistent_complete q i w :
  consistent q → m_running_threads q !! i = Some (Some w) →
  worker_thread_complete (m_thread_id w) q =
    (Ret tt,
     {| m_active_workers := m_active_workers q - 1;
        m_max_workers := m_max_workers q;
        m_running_threads := <[i := None]> (m_running_threads q);
        m_available_thread_ids := m_available_thread_ids q ++ [m_thread_id w] |},
     [Lock m_queue_mutex; NotifyAll; Unlock m_queue_mutex]) ∧
  consistent (worker_thread_complete (Task:=Task) (m_thread_id w) q).1.2.
Proof.
  intros (Hmax & [Hact Hsum] & Hlen & Hnodup & Hfree & Hown) Hw.
  pose proof (Hown _ _ Hw) as Hid. pose proof (lookup_lt_Some _ _ _ Hw) as Hi.
  assert (m_thread_id w ∉ m_available_thread_ids q) as Hnotfree.
  { intros [_ Hnone]%Hfree. rewrite Hid, Nat2Z.id in Hnone. congruence. }
  assert (Z.of_nat (length (m_thread_id w :: m_available_thread_ids q))
            ≤ Z.max 0 (m_max_workers q)) as Hcount.
  { apply free_slots_bounded; [by apply NoDup_cons|].
    intros id [->|Hin]%elem_of_cons; [lia|]. by apply Hfree. }
  simpl in Hcount.
  assert (worker_thread_complete (m_thread_id w) q =
    (Ret tt,
     {| m_active_workers := m_active_workers q - 1;
        m_max_workers := m_max_workers q;
        m_running_threads := <[i := None]> (m_running_threads q);
        m_available_thread_ids := m_available_thread_ids q ++ [m_thread_id w] |},
     [Lock m_queue_mutex; NotifyAll; Unlock m_queue_mutex])) as Heq.
  { unfold worker_thread_complete. exec_m.
    rewrite (to_int_id (Z.of_nat _)) by (rewrite Hlen; done).
    destruct (Z.leb_spec 0 (m_thread_id w)); [|lia].
    destruct (Z.ltb_spec (m_thread_id w) (Z.of_nat (length (m_running_threads q)))); [|lia].
    simpl. unfold set_available, set_running, set_active. simpl.
    rewrite Hid, Nat2Z.id.
    rewrite to_int_pred by (unfold is_int, INT_MIN, INT_MAX in *; lia). done. }
  split; [done|]. rewrite Heq. unfold consistent, slot_invariant. simpl.
  rewrite length_insert, length_app. simpl.
  split_and!; try lia; try done.
  - apply NoDup_app. split_and!; [done| |apply NoDup_singleton].
    intros id Hin ->%list_elem_of_singleton. done.
  - intros id [Hin| ->%list_elem_of_singleton]%elem_of_app.
    + destruct (Hfree _ Hin) as [Hrange Hnone]. split; [done|].
      rewrite list_lookup_insert_ne; [done|]. intros ->.
      rewrite Hnone in Hw. done.
    + split; [lia|]. rewrite Hid, Nat2Z.id. by apply list_lookup_insert_eq.
  - intros j w'. destruct (decide (j = i)) as [->|Hne].
    + by rewrite list_lookup_insert_eq.
    + rewrite list_lookup_insert_ne by done. apply Hown.
Qed.

Lemma step_consistent o o' : step o o' → consistent (base o) → consistent (base o').
Proof.
  intros Hstep Hcons. destruct Hstep as [o|o i w Hw|o p].
  - apply (notify_invariant consistent); [|done].
    intros. by apply consistent_dispatch_one.
  - destruct (consistent_complete _ _ _ Hcons Hw) as [_ Hc]. exec_m.
    by destruct (worker_thread_complete (m_thread_id w) (base o)) as [[r q'] tr].
  - done.
Qed.

(** C3. A WorkQueue can be constructed for every num_threads >= 0, and from
    there on every move of the object (a call of notify, a worker of the
    slot table reporting completion through worker_thread_complete, any
    change to the fields of the derived class) keeps
    0 <= active_workers <= max_workers and
    |available slot IDs| + active_workers = max_workers. *)
Theorem slot_invariant_preserved (n : Z) :
  is_int n → 0 ≤ n →
  ∃ q, WorkQueue.ctor n = Ret q ∧
       ∀ (p : P) o, rtc step {| base := q; derived := p |} o → slot_invariant (base o).
Proof.
  intros Hint Hpos. destruct (ctor_consistent n Hint Hpos) as (q & Hctor & Hcons).
  exists q. split; [done|]. intros p o Hsteps.
  assert (consistent (base o)) as (_ & Hinv & _); [|done].
  remember {| base := q; derived := p |} as o0 eqn:Ho0.
  assert (consistent (base o0)) as Hc0 by by subst.
  clear Ho0. induction Hsteps as [|o1 o2 o3 Hstep _ IH]; [done|].
  apply IH. by eapply step_consistent.
Qed.
End SlotInvariant.

(** ** Calls that only touch the base fields *)

Section BaseCalls.
Context {Task : Type}.
Import WorkQueue.
Implicit Types (q : WorkQueue.t Task).

Lemma worker_thread_complete_in_table worker_id q :
  id_in_table worker_id q = true →
  worker_thread_complete worker_id q =
    (Ret tt,
     {| m_active_workers := to_int (m_active_workers q - 1);
        m_max_workers := m_max_workers q;
        m_running_threads := <[Z.to_nat worker_id := None]> (m_running_threads q);
        m_available_thread_ids := m_available_thread_ids q ++ [worker_id] |},
     [Lock m_queue_mutex; NotifyAll; Unlock m_queue_mutex]).
Proof.
  unfold id_in_table. intros Hid. unfold worker_thread_complete. exec_m.
  by rewrite Hid.
Qed.

Lemma worker_thread_complete_not_in_table worker_id q :
  id_in_table worker_id q = false →
  worker_thread_complete worker_id q =
    (Throw LogicErr,
     {| m_active_workers := to_int (m_active_workers q - 1);
        m_max_workers := m_max_workers q;
        m_running_threads := m_running_threads q;
        m_available_thread_ids := m_available_thread_ids q |},
     [Lock m_queue_mutex; Unlock m_queue_mutex]).
Proof.
  unfold id_in_table. intros Hid. unfold worker_thread_complete. exec_m.
  by rewrite Hid.
Qed.

Lemma max_threads_eq q :
  max_threads q = (Ret (m_max_workers q), q, [Lock m_queue_mutex; Unlock m_queue_mutex]).
Proof. done. Qed.

Lemma active_threads_eq q :
  active_threads q = (Ret (m_active_workers q), q, [Lock m_queue_mutex; Unlock m_queue_mutex]).
Proof. done. Qed.

Lemma join_all_pass_eq q :
  join_all_pass q =
    if m_active_workers q =? 0
    then (Ret true, q, [Lock m_queue_mutex; Unlock m_queue_mutex])
    else (Ret false, q,
          [Lock m_queue_mutex; Unlock m_queue_mutex; Wait;
           Lock m_queue_mutex; Unlock m_queue_mutex]).
Proof. unfold join_all_pass. exec_m. by destruct (m_active_workers q =? 0). Qed.
End BaseCalls.

(** ** Calls and runs *)

Section CallFacts.
Context {Task A P : Type} `{!TaskSource Task P} `{!PollingSource Task P}.
Import WorkQueue.
Implicit Types (o : object Task P) (c : call A) (tr : list (event Task)).
Variable add_task : A → M Task (object Task P) unit.
Variable size : M Task (object Task P) Z.

Lemma run_cons {S C} (ex : C → M Task S (option Task)) (c : C) (cs : list C) (s : S) :
  run ex (c :: cs) s =
    ((run ex cs (ex c s).1.2).1.1,
     handed_out (ex c s).1.1 (ex c s).2 ++ (run ex cs (ex c s).1.2).1.2,
     (ex c s).2 ++ (run ex cs (ex c s).1.2).2).
Proof.
  simpl. destruct (ex c s) as [[r s1] tr1]. simpl.
  by destruct (run ex cs s1) as [[s2 out] tr2].
Qed.

Lemma exec_base_call c o :
  is_Some (base_call (Task:=Task) c) →
  ∃ r q tr,
    exec add_task size c o = (r, {| base := q; derived := derived o |}, tr) ∧
    handed_out r tr = [] ∧
    (public c = true → q = base o) ∧
    (tr = [Lock m_queue_mutex; Unlock m_queue_mutex] ∨
     tr = [Lock m_queue_mutex; NotifyAll; Unlock m_queue_mutex] ∨
     tr = [Lock m_queue_mutex; Unlock m_queue_mutex; Wait;
           Lock m_queue_mutex; Unlock m_queue_mutex]).
Proof.
  destruct o as [q p]. destruct c as [| | | | | | |worker_id]; intros [? Hc]; try done; simpl.
  - exec_m. do 3 eexists; (split_and!; [reflexivity|done|done|eauto]).
  - exec_m. do 3 eexists; (split_and!; [reflexivity|done|done|eauto]).
  - unfold in_base, zoom, mbind, M_bind, bind. simpl. rewrite join_all_pass_eq.
    destruct (m_active_workers q =? 0); simpl; do 3 eexists; (split_and!; [reflexivity|done|done|eauto]).
  - unfold in_base, zoom, mbind, M_bind, bind. simpl.
    destruct (id_in_table worker_id q) eqn:Hid.
    + rewrite (worker_thread_complete_in_table _ _ Hid). simpl. do 3 eexists; (split_and!; [reflexivity|done|done|eauto]).
    + rewrite (worker_thread_complete_not_in_table _ _ Hid). simpl. do 3 eexists; (split_and!; [reflexivity|done|done|eauto]).
Qed.

Lemma exec_get_next_task o :
  exec add_task size GetNextTask o =
    ((get_next_task (derived o)).1.1,
     {| base := base o; derived := (get_next_task (derived o)).1.2 |},
     (get_next_task (derived o)).2).
Proof. simpl. exec_m. by destruct (get_next_task (derived o)) as [[r p'] tr]. Qed.

(** What [notify] does to a concrete queue, seen from outside. *)
Lemma notify_summary o :
  ∃ tasks p' q tr,
    drain (length (m_available_thread_ids (base o))) (derived o) = (tasks, p', Ret tt) ∧
    notify o = (Ret tt, {| base := q; derived := p' |},
                Lock m_queue_mutex :: tr ++ [Unlock m_queue_mutex]) ∧
    storage_effects tr ∧
    (spawned (Lock m_queue_mutex :: tr ++ [Unlock m_queue_mutex])).*2 = tasks ∧
    (m_available_thread_ids (base o) = [] → q = base o ∧ tasks = []).
Proof.
  destruct (notify_closed o) as (tasks & p' & tr & Hdrain & Hlen & Heff & Hsp & Hnotify).
  eexists tasks, p', _, tr. split_and!; [done..| |].
  - simpl. rewrite spawned_app, Hsp. simpl. rewrite app_nil_r. by apply snd_zip.
  - intros Hnil. rewrite Hnil in *. destruct tasks; [|simpl in Hlen; lia].
    split; [|done]. destruct (base o); simpl in *. by subst.
Qed.

Lemma exec_notify o :
  exec add_task size Notify o =
    (Ret None, (notify o).1.2, (notify o).2) ∧ (notify o).1.1 = Ret tt.
Proof.
  destruct (notify_summary o) as (tasks & p' & q & tr & _ & Hnotify & _).
  simpl. unfold mbind, M_bind, bind, mret, M_ret, ret. rewrite Hnotify. simpl.
  by rewrite app_nil_r.
Qed.
End CallFacts.

(** ** FifoWorkQueue: release order *)

Section Fifo.
Context {Task : Type}.
Implicit Types (s p : FifoWorkQueue.t Task) (o : object Task (FifoWorkQueue.t Task)).
Implicit Types (c : call Task) (cs : list (call Task)) (task : Task) (rest tasks : list Task).

Lemma fifo_poll_nil :
  @get_next_task Task (FifoWorkQueue.t Task) _ {| FifoWorkQueue.m_queued_tasks := [] |} =
    (Ret None, {| FifoWorkQueue.m_queued_tasks := [] |}, [Lock m_mutex; Unlock m_mutex]).
Proof. by apply fifo_get_next_task_nil. Qed.

Lemma fifo_poll_cons task rest :
  get_next_task {| FifoWorkQueue.m_queued_tasks := task :: rest |} =
    (Ret (Some task), {| FifoWorkQueue.m_queued_tasks := rest |}, [Lock m_mutex; Unlock m_mutex]).
Proof. by apply fifo_get_next_task_cons. Qed.

Lemma fifo_poll_none s p' tr : get_next_task s = (Ret None, p', tr) → p' = s.
Proof.
  destruct s as [[|task rest]].
  - rewrite fifo_poll_nil. by intros [= <-].
  - by rewrite fifo_poll_cons.
Qed.

Lemma fifo_polled p tasks p1 :
  polled p tasks p1 → FifoWorkQueue.m_queued_tasks p = tasks ++ FifoWorkQueue.m_queued_tasks p1.
Proof.
  induction 1 as [|p task p1 tr tasks p2 Hpoll _ IH]; [done|].
  destruct p as [[|task' rest]].
  - by rewrite fifo_poll_nil in Hpoll.
  - rewrite fifo_poll_cons in Hpoll.
    injection Hpoll as <- <- _. simpl in *. by rewrite IH.
Qed.

Lemma fifo_drain n p tasks p' :
  drain n p = (tasks, p', Ret tt) → FifoWorkQueue.m_queued_tasks p = tasks ++ FifoWorkQueue.m_queued_tasks p'.
Proof.
  intros (p1 & Hpolled & Hend)%drain_polled. apply fifo_polled in Hpolled.
  destruct Hend as [[_ ->]|[_ [tr Hnone]]]; [done|].
  apply fifo_poll_none in Hnone as ->. done.
Qed.

Lemma fifo_notify_order o :
  (notify o).1.1 = Ret tt ∧
  (spawned (notify o).2).*2 ++ FifoWorkQueue.m_queued_tasks (derived (notify o).1.2) =
    FifoWorkQueue.m_queued_tasks (derived o).
Proof.
  destruct (notify_summary o) as (tasks & p' & q & tr & Hdrain & Hnotify & _ & Hsp & _).
  rewrite Hnotify. cbn [fst snd derived]. rewrite Hsp.
  split; [done|]. symmetry. by eapply fifo_drain.
Qed.

Lemma fifo_add_task_eq task o :
  let stored := {| base := base o;
                   derived := {| FifoWorkQueue.m_queued_tasks := FifoWorkQueue.m_queued_tasks (derived o) ++ [task] |} |} in
  FifoWorkQueue.add_task task o =
    (Ret tt, (notify stored).1.2, [Lock m_mutex; Unlock m_mutex] ++ (notify stored).2).
Proof.
  intros stored. pose proof (notify_returns stored) as Hret.
  unfold FifoWorkQueue.add_task. exec_m. fold stored.
  destruct (notify stored) as [[r o1] tr]. simpl in *. by subst.
Qed.

Lemma fifo_size_eq o :
  FifoWorkQueue.size o = (Ret (to_int (Z.of_nat (length (FifoWorkQueue.m_queued_tasks (derived o))))), o,
            [Lock m_mutex; Unlock m_mutex]).
Proof. unfold FifoWorkQueue.size. exec_m. by destruct o. Qed.

(** Each call hands out a prefix of what is pending after its own
    submission. *)
Lemma fifo_exec_order c o :
  handed_out (fifo_exec c o).1.1 (fifo_exec c o).2
    ++ FifoWorkQueue.m_queued_tasks (derived (fifo_exec c o).1.2) =
  FifoWorkQueue.m_queued_tasks (derived o) ++ submitted [c].
Proof.
  destruct (base_call (Task:=Task) c) as [b|] eqn:Hbase.
  { destruct (exec_base_call FifoWorkQueue.add_task FifoWorkQueue.size c o) as (r & q & tr & Heq & Hout & _);
      [by eexists|].
    unfold fifo_exec. rewrite Heq. simpl. rewrite Hout.
    destruct c; simpl in *; try done; by rewrite app_nil_r. }
  destruct c as [task| | | | | | |]; try done; unfold fifo_exec.
  - unfold exec, mbind, M_bind, bind, mret, M_ret, ret.
    rewrite fifo_add_task_eq. simpl.
    match goal with |- context [notify ?o'] => pose proof (fifo_notify_order o') as [_ Hord] end.
    simpl in Hord. unfold handed_out. simpl. rewrite !app_nil_r. done.
  - rewrite exec_get_next_task. simpl. rewrite app_nil_r.
    destruct (derived o) as [[|task rest]] eqn:Hd.
    + by rewrite fifo_poll_nil.
    + by rewrite fifo_poll_cons.
  - unfold exec, mbind, M_bind, bind, mret, M_ret, ret. rewrite fifo_size_eq.
    simpl. by rewrite app_nil_r.
  - destruct (exec_notify FifoWorkQueue.add_task FifoWorkQueue.size o) as [-> _]. simpl.
    pose proof (fifo_notify_order o) as [_ Hord].
    unfold handed_out. by rewrite !app_nil_r.
Qed.

Lemma fifo_run_order cs o :
  (run fifo_exec cs o).1.2 ++ FifoWorkQueue.m_queued_tasks (derived (run fifo_exec cs o).1.1) =
  FifoWorkQueue.m_queued_tasks (derived o) ++ submitted cs.
Proof.
  revert o. induction cs as [|c cs IH]; intros o.
  { simpl. by rewrite app_nil_r. }
  rewrite run_cons. simpl. rewrite <-(assoc_L (++)), IH, (assoc_L (++)), fifo_exec_order.
  rewrite <-(assoc_L (++)). by destruct c.
Qed.

(** C4. get_next_task of a FifoWorkQueue answers "none" when nothing is
    pending and otherwise removes and answers the head of the pending
    sequence; hence, whatever calls are made on a queue after its
    construction, the tasks handed out so far followed by those still
    pending are the submitted tasks in submission order. *)
Theorem fifo_release_order :
  (∀ s, FifoWorkQueue.m_queued_tasks s = [] →
        FifoWorkQueue.get_next_task s = (Ret None, s, [Lock m_mutex; Unlock m_mutex])) ∧
  (∀ s task rest, FifoWorkQueue.m_queued_tasks s = task :: rest →
        FifoWorkQueue.get_next_task s =
          (Ret (Some task), {| FifoWorkQueue.m_queued_tasks := rest |}, [Lock m_mutex; Unlock m_mutex])) ∧
  (∀ num_threads o cs, FifoWorkQueue.ctor num_threads = Ret o →
        (run fifo_exec cs o).1.2 ++ FifoWorkQueue.m_queued_tasks (derived (run fifo_exec cs o).1.1) =
          submitted cs).
Proof.
  split_and!.
  - apply fifo_get_next_task_nil.
  - apply fifo_get_next_task_cons.
  - intros n o cs Hctor. rewrite fifo_run_order.
    unfold FifoWorkQueue.ctor in Hctor. destruct (WorkQueue.ctor n); [|done].
    by injection Hctor as <-.
Qed.
End Fifo.

(** ** OrderedWorkQueue: next_index *)

Section Ordered.
Context {Task : Type}.
Implicit Types (s p : OrderedWorkQueue.t Task) (o : object Task (OrderedWorkQueue.t Task)).
Implicit Types (c : call (Task * Z)) (cs : list (call (Task * Z))).
Implicit Types (task : Task) (tasks : list Task) (index : Z).

(** What a successful call released, and what a failed one left alone. *)
Lemma ordered_poll_inv s r s' tr :
  OrderedWorkQueue.get_next_task s = (Ret r, s', tr) →
  match r with
  | None => s' = s
  | Some task =>
      is_min_key (OrderedWorkQueue.m_queued_tasks s) (OrderedWorkQueue.m_next_index s) ∧
      OrderedWorkQueue.m_queued_tasks s !! OrderedWorkQueue.m_next_index s = Some task ∧
      s' = {| OrderedWorkQueue.m_queued_tasks :=
                delete (OrderedWorkQueue.m_next_index s) (OrderedWorkQueue.m_queued_tasks s);
              OrderedWorkQueue.m_next_index :=
                to_int (OrderedWorkQueue.m_next_index s + 1) |}
  end.
Proof.
  destruct (ordered_get_next_task_cases s)
    as [[_ ->]|[(k & _ & _ & ->)|(task & Hmin & Hk & ->)]]; intros [= <- <- _]; done.
Qed.

Lemma keys_releasable_delete (m : gmap Z Task) k :
  keys_releasable m → keys_releasable (delete k m).
Proof.
  intros Hm k' [task Hk']. apply Hm. exists task.
  apply lookup_delete_Some in Hk' as [_ Hk']. done.
Qed.

Lemma keys_releasable_insert (m : gmap Z Task) k task :
  releasable k → keys_releasable m → keys_releasable (<[k := task]> m).
Proof.
  intros Hk Hm k' [task' Hk']. apply lookup_insert_Some in Hk' as [[<- _]|[_ Hk']]; [done|].
  apply Hm. by exists task'.
Qed.

Lemma ordered_polled p tasks p1 :
  polled p tasks p1 →
  keys_releasable (OrderedWorkQueue.m_queued_tasks p) →
  OrderedWorkQueue.m_next_index p1 = OrderedWorkQueue.m_next_index p + Z.of_nat (length tasks) ∧
  keys_releasable (OrderedWorkQueue.m_queued_tasks p1).
Proof.
  induction 1 as [p|p task p1 tr tasks p2 Hpoll _ IH]; intros Hkeys.
  { split; [simpl; lia|done]. }
  apply ordered_poll_inv in Hpoll as (_ & Hk & ->). simpl in IH.
  destruct IH as [-> Hkeys2]; [by apply keys_releasable_delete|].
  split; [|done]. rewrite to_int_succ by (apply Hkeys; by exists task).
  simpl length. lia.
Qed.

Lemma ordered_drain n p tasks p' :
  drain n p = (tasks, p', Ret tt) →
  keys_releasable (OrderedWorkQueue.m_queued_tasks p) →
  OrderedWorkQueue.m_next_index p' = OrderedWorkQueue.m_next_index p + Z.of_nat (length tasks) ∧
  keys_releasable (OrderedWorkQueue.m_queued_tasks p').
Proof.
  intros (p1 & Hpolled & Hend)%drain_polled Hkeys.
  destruct (ordered_polled _ _ _ Hpolled Hkeys) as [Hnext Hkeys1].
  destruct Hend as [[_ ->]|[_ [tr Hnone]]]; [done|].
  apply ordered_poll_inv in Hnone as ->. done.
Qed.

Lemma ordered_notify_next o :
  keys_releasable (OrderedWorkQueue.m_queued_tasks (derived o)) →
  (notify o).1.1 = Ret tt ∧
  OrderedWorkQueue.m_next_index (derived (notify o).1.2) =
    OrderedWorkQueue.m_next_index (derived o) + Z.of_nat (length (spawned (notify o).2)) ∧
  keys_releasable (OrderedWorkQueue.m_queued_tasks (derived (notify o).1.2)).
Proof.
  intros Hkeys.
  destruct (notify_summary o) as (tasks & p' & q & tr & Hdrain & Hnotify & _ & Hsp & _).
  rewrite Hnotify. cbn [fst snd derived].
  destruct (ordered_drain _ _ _ _ Hdrain Hkeys) as [Hnext Hkeys'].
  split_and!; [done| |done]. rewrite Hnext, <-Hsp. by rewrite length_fmap.
Qed.

Lemma ordered_add_task_eq task index o :
  let stored :=
    {| base := base o;
       derived :=
         {| OrderedWorkQueue.m_queued_tasks :=
              <[index := task]> (OrderedWorkQueue.m_queued_tasks (derived o));
            OrderedWorkQueue.m_next_index := OrderedWorkQueue.m_next_index (derived o) |} |} in
  OrderedWorkQueue.add_task task index o =
    (Ret tt, (notify stored).1.2, [Lock m_mutex; Unlock m_mutex] ++ (notify stored).2).
Proof.
  intros stored. pose proof (notify_returns stored) as Hret.
  unfold OrderedWorkQueue.add_task. exec_m. fold stored.
  destruct (notify stored) as [[r o1] tr]. simpl in *. by subst.
Qed.

Lemma ordered_size_eq o :
  OrderedWorkQueue.size o =
    (Ret (to_int (Z.of_nat (size (OrderedWorkQueue.m_queued_tasks (derived o))))), o,
     [Lock m_mutex; Unlock m_mutex]).
Proof. unfold OrderedWorkQueue.size. exec_m. by destruct o. Qed.

(** A call moves [m_next_index] forward by the number of tasks it hands
    out. *)
Lemma ordered_exec_next c o :
  keys_releasable (OrderedWorkQueue.m_queued_tasks (derived o)) →
  Forall (λ a, releasable a.2) (submitted [c]) →
  OrderedWorkQueue.m_next_index (derived (ordered_exec c o).1.2) =
    OrderedWorkQueue.m_next_index (derived o)
      + Z.of_nat (length (handed_out (ordered_exec c o).1.1 (ordered_exec c o).2)) ∧
  keys_releasable (OrderedWorkQueue.m_queued_tasks (derived (ordered_exec c o).1.2)).
Proof.
  intros Hkeys Hsub.
  destruct (base_call (Task:=Task) c) as [b|] eqn:Hbase.
  { destruct (exec_base_call (λ a, OrderedWorkQueue.add_task a.1 a.2) OrderedWorkQueue.size c o)
      as (r & q & tr & Heq & Hout & _); [by eexists|].
    unfold ordered_exec. rewrite Heq. simpl. rewrite Hout. simpl. split; [lia|done]. }
  destruct c as [[task index]| | | | | | |]; try done; unfold ordered_exec.
  - unfold exec, mbind, M_bind, bind, mret, M_ret, ret.
    rewrite ordered_add_task_eq. simpl.
    apply Forall_cons in Hsub as [Hsub _]. simpl in Hsub.
    match goal with
    | |- context [notify ?o'] => destruct (ordered_notify_next o') as (_ & Hnext & Hkeys')
    end.
    { simpl. by apply keys_releasable_insert. }
    simpl in Hnext. unfold handed_out. simpl. rewrite !app_nil_r, length_fmap. done.
  - rewrite exec_get_next_task. simpl.
    destruct (poll_returns (derived o)) as [r Hr].
    destruct (get_next_task (derived o)) as [[r' s'] tr] eqn:Hpoll. simpl in *. subst r'.
    pose proof (ordered_poll_inv _ _ _ _ Hpoll) as Hinv. unfold handed_out. simpl.
    assert (spawned tr = []) as ->.
    { pose proof (poll_effects (derived o)) as Heff. rewrite Hpoll in Heff.
      simpl in Heff. destruct Heff as [->| ->]; done. }
    destruct r as [task|]; simpl.
    + destruct Hinv as (_ & Hk & ->). simpl.
      split; [|by apply keys_releasable_delete].
      apply to_int_succ. apply Hkeys. by exists task.
    + subst s'. split; [lia|done].
  - unfold exec, mbind, M_bind, bind, mret, M_ret, ret. rewrite ordered_size_eq.
    simpl. split; [lia|done].
  - destruct (exec_notify (λ a, OrderedWorkQueue.add_task a.1 a.2) OrderedWorkQueue.size o)
      as [-> _]. simpl.
    destruct (ordered_notify_next o Hkeys) as (_ & Hnext & Hkeys').
    unfold handed_out. rewrite !app_nil_r, length_fmap. done.
Qed.

Lemma ordered_run_next cs o :
  keys_releasable (OrderedWorkQueue.m_queued_tasks (derived o)) →
  Forall (λ a, releasable a.2) (submitted cs) →
  OrderedWorkQueue.m_next_index (derived (run ordered_exec cs o).1.1) =
    OrderedWorkQueue.m_next_index (derived o)
      + Z.of_nat (length (run ordered_exec cs o).1.2) ∧
  keys_releasable (OrderedWorkQueue.m_queued_tasks (derived (run ordered_exec cs o).1.1)).
Proof.
  revert o. induction cs as [|c cs IH]; intros o Hkeys Hsub.
  { simpl. split; [lia|done]. }
  assert (Forall (λ a, releasable a.2) (submitted [c]) ∧
          Forall (λ a, releasable a.2) (submitted cs)) as [Hc Hcs].
  { destruct c; simpl in *; try (split; [constructor|done]).
    apply Forall_cons in Hsub as [? ?]. split; [by constructor|done]. }
  destruct (ordered_exec_next c o Hkeys Hc) as [Hnext Hkeys1].
  destruct (IH _ Hkeys1 Hcs) as [Hnext2 Hkeys2].
  rewrite run_cons. cbn [fst snd]. rewrite Hnext2, Hnext, length_app.
  split; [lia|done].
Qed.

(** C5. next_index is 0 after construction.  From every state reached by
    calls on the queue, further calls move it forward by exactly the number
    of tasks they hand out, so it never decreases and grows by 1 per
    release (the submitted indices being ints below INT_MAX, beyond which
    an int cannot count).  A task is handed out only if it is the entry
    stored under the current next_index, which is then the least pending
    key, and the release erases that entry. *)
Theorem ordered_next_index :
  (∀ num_threads o,
      OrderedWorkQueue.ctor num_threads = Ret o →
      OrderedWorkQueue.m_next_index (derived o) = 0) ∧
  (∀ num_threads o cs cs',
      OrderedWorkQueue.ctor num_threads = Ret o →
      Forall (λ a, releasable a.2) (submitted (cs ++ cs')) →
      let o1 := (run ordered_exec cs o).1.1 in
      OrderedWorkQueue.m_next_index (derived (run ordered_exec cs' o1).1.1) =
        OrderedWorkQueue.m_next_index (derived o1)
          + Z.of_nat (length (run ordered_exec cs' o1).1.2)) ∧
  (∀ s task s' tr,
      OrderedWorkQueue.get_next_task s = (Ret (Some task), s', tr) →
      is_min_key (OrderedWorkQueue.m_queued_tasks s) (OrderedWorkQueue.m_next_index s) ∧
      OrderedWorkQueue.m_queued_tasks s !! OrderedWorkQueue.m_next_index s = Some task ∧
      OrderedWorkQueue.m_queued_tasks s' =
        delete (OrderedWorkQueue.m_next_index s) (OrderedWorkQueue.m_queued_tasks s) ∧
      (releasable (OrderedWorkQueue.m_next_index s) →
       OrderedWorkQueue.m_next_index s' = OrderedWorkQueue.m_next_index s + 1)).
Proof.
  split_and!.
  - intros n o Hctor. unfold OrderedWorkQueue.ctor in Hctor.
    destruct (WorkQueue.ctor n); [|done]. by injection Hctor as <-.
  - intros n o cs cs' Hctor Hsub o1.
    unfold submitted in Hsub. rewrite omap_app in Hsub.
    apply Forall_app in Hsub as [Hcs Hcs'].
    assert (keys_releasable (OrderedWorkQueue.m_queued_tasks (derived o))) as Hkeys.
    { unfold OrderedWorkQueue.ctor in Hctor.
      destruct (WorkQueue.ctor n); [|done]. injection Hctor as <-. simpl.
      intros k [task Hk]. by rewrite lookup_empty in Hk. }
    destruct (ordered_run_next cs o Hkeys Hcs) as [_ Hkeys1].
    by destruct (ordered_run_next cs' o1 Hkeys1 Hcs') as [Hnext _].
  - intros s task s' tr Hpoll. apply ordered_poll_inv in Hpoll as (Hmin & Hk & ->).
    simpl. split_and!; [done..|]. apply to_int_succ.
Qed.
End Ordered.

(** ** Error paths *)

Section Errors.
Context {Task : Type}.
Import WorkQueue.
Implicit Types (q : WorkQueue.t Task).

(** C6, as the code has it.  In a queue whose slot table has max_workers
    entries, worker_thread_complete with a slot ID outside [0, max_workers)
    fails its assertion: it throws LogicErr and leaves the slot table and
    the free list alone.  With an ID inside the range it never throws,
    whether or not that slot is already free: it empties the slot's entry
    and appends the ID to the free list. *)
Theorem worker_thread_complete_assertion q worker_id :
  Z.of_nat (length (m_running_threads q)) = m_max_workers q →
  is_int (m_max_workers q) →
  (¬ (0 ≤ worker_id < m_max_workers q) →
   ∃ q', worker_thread_complete worker_id q =
           (Throw LogicErr, q', [Lock m_queue_mutex; Unlock m_queue_mutex]) ∧
         m_running_threads q' = m_running_threads q ∧
         m_available_thread_ids q' = m_available_thread_ids q) ∧
  (0 ≤ worker_id < m_max_workers q →
   ∃ q', worker_thread_complete worker_id q =
           (Ret tt, q', [Lock m_queue_mutex; NotifyAll; Unlock m_queue_mutex]) ∧
         m_running_threads q' = <[Z.to_nat worker_id := None]> (m_running_threads q) ∧
         m_available_thread_ids q' = m_available_thread_ids q ++ [worker_id]).
Proof.
  intros Hlen Hmax.
  assert (id_in_table worker_id q = true ↔ 0 ≤ worker_id < m_max_workers q) as Hid.
  { unfold id_in_table. rewrite Hlen, (to_int_id _ Hmax).
    rewrite andb_true_iff, Z.leb_le, Z.ltb_lt. done. }
  split; intros Hrange.
  - rewrite worker_thread_complete_not_in_table; [by eexists|].
    apply not_true_is_false. by rewrite Hid.
  - rewrite worker_thread_complete_in_table; [by eexists|]. by apply Hid.
Qed.

(** C7. The constructors reject a negative num_threads: resize is asked for
    more than max_size() entries and throws length_error, so no queue
    object comes into being. *)
Theorem ctor_rejects_negative (num_threads : Z) :
  is_int num_threads → num_threads < 0 →
  WorkQueue.ctor (Task:=Task) num_threads = Throw length_error ∧
  FifoWorkQueue.ctor (Task:=Task) num_threads = Throw length_error ∧
  OrderedWorkQueue.ctor (Task:=Task) num_threads = Throw length_error.
Proof.
  intros Hint Hneg.
  assert (WorkQueue.ctor (Task:=Task) num_threads = Throw length_error) as Hctor.
  { unfold WorkQueue.ctor. rewrite to_size_t_neg by done.
    destruct (Z.ltb_spec vector_max_size (num_threads + (SIZE_MAX + 1))) as [_|Hsmall]; [done|].
    rewrite vector_max_size_eq in Hsmall. unfold is_int, INT_MIN, SIZE_MAX in *. lia. }
  unfold FifoWorkQueue.ctor, OrderedWorkQueue.ctor. by rewrite Hctor.
Qed.
End Errors.

(** ** Lock nesting *)

Section LockOrder.
Context {Task : Type}.
Implicit Types (tr : list (event Task)).

Lemma call_effects_nestings tr :
  call_effects tr →
  held_after [] tr = [] ∧ Forall queue_then_storage (nestings [] tr).
Proof.
  intros [->|[->|[->|(tr1 & tr2 & H1 & H2 & [->| ->])]]]; try by (split; [done|constructor]).
  - destruct (storage_effects_unlocked _ H1) as [-> ->]. by split; [|constructor].
  - destruct (storage_effects_unlocked _ H1) as [Hheld1 Hnest1].
    destruct (storage_effects_under_queue_mutex _ H2) as [Hheld2 Hnest2].
    rewrite held_after_app, nestings_app, Hheld1, Hnest1. simpl.
    rewrite held_after_app, nestings_app, Hheld2. simpl.
    split; [done|]. by rewrite app_nil_r.
Qed.
End LockOrder.

Section ClassEffects.
Context {Task A P : Type} `{!TaskSource Task P} `{!PollingSource Task P}.
Implicit Types (o : object Task P) (c : call A).
Variable add_task : A → M Task (object Task P) unit.
Variable size : M Task (object Task P) Z.

Lemma poll_storage_effects (p : P) : storage_effects (get_next_task p).2.
Proof. destruct (poll_effects p) as [->| ->]; eauto using @storage_effects. Qed.

Lemma notify_call_effects o tr1 :
  storage_effects tr1 → call_effects (tr1 ++ (notify o).2).
Proof.
  intros H1. destruct (notify_summary o) as (tasks & p' & q & tr & _ & -> & Htr & _).
  do 3 right. exists tr1, tr. split_and!; [done..|by right].
Qed.

(** Every call of a class whose [add_task] stores under [m_mutex] and then
    notifies, and whose [size] reads under [m_mutex], has the effects of
    [call_effects]. *)
Lemma exec_call_effects c o :
  (∀ a o', ∃ o1, (add_task a o').2 = [Lock m_mutex; Unlock m_mutex] ++ (notify o1).2) →
  (∀ o', (size o').2 = [Lock m_mutex; Unlock m_mutex]) →
  call_effects (exec add_task size c o).2.
Proof.
  intros Hadd Hsize.
  destruct (base_call (Task:=Task) c) as [b|] eqn:Hbase.
  { destruct (exec_base_call add_task size c o) as (r & q & tr & -> & _ & _ & Htr);
      [by eexists|].
    simpl. destruct Htr as [->|[->| ->]]; unfold call_effects; eauto. }
  destruct c as [a| | | | | | |]; try done.
  - unfold exec, mbind, M_bind, bind, mret, M_ret, ret.
    destruct (Hadd a o) as [o1 Ho1].
    destruct (add_task a o) as [[[[]|e] o2] tr]; simpl in *; subst tr;
      rewrite ?app_nil_r;
      apply (notify_call_effects o1 [Lock m_mutex; Unlock m_mutex]);
      eauto using @storage_effects.
  - rewrite exec_get_next_task. simpl. do 3 right.
    exists (get_next_task (derived o)).2, []. split_and!; [|constructor|by left].
    apply poll_storage_effects.
  - unfold exec, mbind, M_bind, bind, mret, M_ret, ret.
    specialize (Hsize o). destruct (size o) as [[[z|e] o2] tr]; simpl in *; subst tr;
      do 3 right; exists [Lock m_mutex; Unlock m_mutex], [];
      (split_and!; [eauto using @storage_effects|constructor|by left]).
  - destruct (exec_notify add_task size o) as [-> _]. simpl.
    apply (notify_call_effects o []). constructor.
Qed.
End ClassEffects.

Section LockOrderTheorem.
Context {Task : Type}.

Lemma thread_nestings {S C} (ex : C → M Task S (option Task)) :
  (∀ c s, call_effects (ex c s).2) →
  ∀ h, held_after [] (thread_effects ex h) = [] ∧
       Forall queue_then_storage (nestings [] (thread_effects ex h)).
Proof.
  intros Hex h. induction h as [|[c s] h [IH1 IH2]].
  { by split; [|constructor]. }
  unfold thread_effects in *. simpl.
  destruct (call_effects_nestings _ (Hex c s)) as [Hheld Hnest].
  rewrite held_after_app, nestings_app, Hheld. split; [done|].
  by apply Forall_app.
Qed.

Lemma fifo_call_effects c (o : object Task (FifoWorkQueue.t Task)) :
  call_effects (fifo_exec c o).2.
Proof.
  apply exec_call_effects.
  - intros task o'. rewrite fifo_add_task_eq. by eexists.
  - intros o'. by rewrite fifo_size_eq.
Qed.

Lemma ordered_call_effects c (o : object Task (OrderedWorkQueue.t Task)) :
  call_effects (ordered_exec c o).2.
Proof.
  apply exec_call_effects.
  - intros [task index] o'. rewrite ordered_add_task_eq. by eexists.
  - intros o'. by rewrite ordered_size_eq.
Qed.

(** C8, as the code has it.  Whatever calls a thread makes on a
    FifoWorkQueue or an OrderedWorkQueue, whenever it acquires a mutex
    while holding another one, the mutex held is the slot mutex of the
    base class and the one acquired is the mutex of the pending tasks (as
    notify does around get_next_task); the slot mutex is never acquired
    under the other one, and the thread holds nothing between calls.  With
    a single order of acquisition there is no lock-ordering cycle. *)
Theorem lock_nesting_order :
  (∀ h : list (call Task * object Task (FifoWorkQueue.t Task)),
      held_after [] (thread_effects fifo_exec h) = [] ∧
      Forall queue_then_storage (nestings [] (thread_effects fifo_exec h))) ∧
  (∀ h : list (call (Task * Z) * object Task (OrderedWorkQueue.t Task)),
      held_after [] (thread_effects ordered_exec h) = [] ∧
      Forall queue_then_storage (nestings [] (thread_effects ordered_exec h))).
Proof.
  split; intros h.
  - apply thread_nestings. intros c o. apply fifo_call_effects.
  - apply thread_nestings. intros c o. apply ordered_call_effects.
Qed.
End LockOrderTheorem.

(** ** A queue without slots *)

Section NoSlots.
Context {Task A P : Type} `{!TaskSource Task P} `{!PollingSource Task P}.
Import WorkQueue.
Implicit Types (o : object Task P) (c : call A) (cs : list (call A)).
Variable add_task : A → M Task (object Task P) unit.
Variable size : M Task (object Task P) Z.

(** [add_task] stores under [m_mutex] and then notifies; [size] only
    reads. *)
Hypothesis add_task_notifies :
  ∀ a o, ∃ p1, let stored := {| base := base o; derived := p1 |} in
    add_task a o = (Ret tt, (notify stored).1.2,
                    [Lock m_mutex; Unlock m_mutex] ++ (notify stored).2).
Hypothesis size_reads :
  ∀ o, ∃ z, size o = (Ret z, o, [Lock m_mutex; Unlock m_mutex]).

Lemma notify_no_free_slot o :
  m_available_thread_ids (base o) = [] →
  base (notify o).1.2 = base o ∧ spawned (notify o).2 = [].
Proof.
  intros Hnil.
  destruct (notify_summary o) as (tasks & p' & q & tr & _ & Hnotify & _ & Hsp & Hidle).
  destruct (Hidle Hnil) as [-> ->]. rewrite Hnotify. cbn [fst snd base].
  split; [done|]. by apply fmap_nil_inv in Hsp.
Qed.

Lemma exec_no_free_slot c o :
  public c = true →
  m_available_thread_ids (base o) = [] →
  base (exec add_task size c o).1.2 = base o ∧ spawned (exec add_task size c o).2 = [].
Proof.
  intros Hpub Hnil.
  destruct (base_call (Task:=Task) c) as [b|] eqn:Hbase.
  { destruct (exec_base_call add_task size c o) as (r & q & tr & -> & Hout & Hq & _);
      [by eexists|].
    cbn [fst snd base]. split; [by apply Hq|].
    unfold handed_out in Hout. apply app_eq_nil in Hout as [Hout _].
    by apply fmap_nil_inv in Hout. }
  destruct c as [a| | | | | | |]; try done.
  - unfold exec, mbind, M_bind, bind, mret, M_ret, ret.
    destruct (add_task_notifies a o) as [p1 ->]. cbn [fst snd].
    rewrite app_nil_r. simpl.
    by destruct (notify_no_free_slot {| base := base o; derived := p1 |} Hnil) as [-> ->].
  - rewrite exec_get_next_task. cbn [fst snd base]. split; [done|].
    destruct (poll_effects (derived o)) as [->| ->]; done.
  - unfold exec, mbind, M_bind, bind, mret, M_ret, ret.
    destruct (size_reads o) as [z ->]. by cbn [fst snd].
  - destruct (exec_notify add_task size o) as [-> _]. cbn [fst snd].
    by apply notify_no_free_slot.
Qed.

Lemma run_no_free_slot cs o :
  Forall (λ c, public c = true) cs →
  m_available_thread_ids (base o) = [] →
  base (run (exec add_task size) cs o).1.1 = base o ∧
  spawned (run (exec add_task size) cs o).2 = [].
Proof.
  revert o. induction cs as [|c cs IH]; intros o Hpub Hnil; [done|].
  apply Forall_cons in Hpub as [Hc Hcs].
  destruct (exec_no_free_slot c o Hc Hnil) as [Hbase Hsp].
  destruct (IH (exec add_task size c o).1.2 Hcs) as [Hbase' Hsp']; [by rewrite Hbase|].
  rewrite run_cons. cbn [fst snd]. rewrite spawned_app, Hsp, Hsp', Hbase', Hbase. done.
Qed.
End NoSlots.

Section CapacityZero.
Context {Task : Type}.
Import WorkQueue.

Lemma fifo_add_task_notifies (task : Task) (o : object Task (FifoWorkQueue.t Task)) :
  ∃ p1, let stored := {| base := base o; derived := p1 |} in
    FifoWorkQueue.add_task task o =
      (Ret tt, (notify stored).1.2, [Lock m_mutex; Unlock m_mutex] ++ (notify stored).2).
Proof. eexists. apply fifo_add_task_eq. Qed.

Lemma ordered_add_task_notifies (a : Task * Z) (o : object Task (OrderedWorkQueue.t Task)) :
  ∃ p1, let stored := {| base := base o; derived := p1 |} in
    OrderedWorkQueue.add_task a.1 a.2 o =
      (Ret tt, (notify stored).1.2, [Lock m_mutex; Unlock m_mutex] ++ (notify stored).2).
Proof. eexists. apply ordered_add_task_eq. Qed.

(** C9. A FifoWorkQueue or OrderedWorkQueue constructed with capacity 0
    never dispatches: after any sequence of calls of its public member
    functions (add_task, polls of get_next_task, notify, size and the
    others) active_threads() answers 0, the slot table is empty and no
    worker thread has been created. *)
Theorem capacity_zero_never_dispatches :
  (∃ o, FifoWorkQueue.ctor (Task:=Task) 0 = Ret o ∧
        ∀ cs, Forall (λ c, public c = true) cs →
              (active_threads (base (run fifo_exec cs o).1.1)).1.1 = Ret 0 ∧
              m_running_threads (base (run fifo_exec cs o).1.1) = [] ∧
              spawned (run fifo_exec cs o).2 = []) ∧
  (∃ o, OrderedWorkQueue.ctor (Task:=Task) 0 = Ret o ∧
        ∀ cs, Forall (λ c, public c = true) cs →
              (active_threads (base (run ordered_exec cs o).1.1)).1.1 = Ret 0 ∧
              m_running_threads (base (run ordered_exec cs o).1.1) = [] ∧
              spawned (run ordered_exec cs o).2 = []).
Proof.
  pose (idle := {| m_active_workers := 0; m_max_workers := 0;
                   m_running_threads := @nil (option (WorkerThread Task));
                   m_available_thread_ids := [] |}).
  split.
  - exists {| base := idle; derived := {| FifoWorkQueue.m_queued_tasks := [] |} |}.
    split; [reflexivity|]. intros cs Hpub.
    destruct (run_no_free_slot FifoWorkQueue.add_task FifoWorkQueue.size
                fifo_add_task_notifies (λ o, ex_intro _ _ (fifo_size_eq o))
                cs {| base := idle; derived := {| FifoWorkQueue.m_queued_tasks := [] |} |}
                Hpub eq_refl) as [Hbase Hsp].
    unfold fifo_exec. rewrite Hbase, Hsp. done.
  - exists {| base := idle;
              derived := {| OrderedWorkQueue.m_queued_tasks := ∅;
                            OrderedWorkQueue.m_next_index := 0 |} |}.
    split; [reflexivity|]. intros cs Hpub.
    destruct (run_no_free_slot (λ a, OrderedWorkQueue.add_task a.1 a.2) OrderedWorkQueue.size
                ordered_add_task_notifies (λ o, ex_intro _ _ (ordered_size_eq o))
                cs {| base := idle;
                      derived := {| OrderedWorkQueue.m_queued_tasks := ∅;
                                    OrderedWorkQueue.m_next_index := 0 |} |}
                Hpub eq_refl) as [Hbase Hsp].
    unfold ordered_exec. rewrite Hbase, Hsp. done.
Qed.
End CapacityZero.

(** ** OrderedWorkQueue::add_task on an index that is already pending *)

Section SameIndex.
Context {Task : Type}.
Import WorkQueue.
Implicit Types (p : OrderedWorkQueue.t Task) (o : object Task (OrderedWorkQueue.t Task)).
Implicit Types (task : Task) (tasks : list Task) (index : Z).

Lemma ordered_polled_size p tasks p1 :
  polled p tasks p1 →
  (size (OrderedWorkQueue.m_queued_tasks p1) + length tasks)%nat =
    size (OrderedWorkQueue.m_queued_tasks p).
Proof.
  induction 1 as [p|p task p1 tr tasks p2 Hpoll _ IH]; [simpl; lia|].
  apply ordered_poll_inv in Hpoll as (_ & Hk & ->). simpl in IH.
  rewrite map_size_delete_Some in IH by by exists task.
  assert (size (OrderedWorkQueue.m_queued_tasks p) ≠ 0%nat).
  { intros Hz%map_size_empty_iff. rewrite Hz in Hk. by rewrite lookup_empty in Hk. }
  simpl. lia.
Qed.

Lemma ordered_polled_pending p tasks p1 index task :
  polled p tasks p1 →
  OrderedWorkQueue.m_queued_tasks p !! index = Some task →
  OrderedWorkQueue.m_queued_tasks p1 !! index = Some task ∨ task ∈ tasks.
Proof.
  induction 1 as [p|p task' p1 tr tasks p2 Hpoll _ IH]; intros Hindex; [by left|].
  apply ordered_poll_inv in Hpoll as (_ & Hk & ->). simpl in IH.
  destruct (decide (OrderedWorkQueue.m_next_index p = index)) as [Heq|Hne].
  - right. rewrite Heq in Hk. apply elem_of_cons. left. congruence.
  - destruct IH as [IH|IH]; [by rewrite lookup_delete_ne|by left|].
    right. apply elem_of_cons. by right.
Qed.

Lemma ordered_drain_polled n p tasks p' :
  drain n p = (tasks, p', Ret tt) → polled p tasks p'.
Proof.
  intros (p1 & Hpolled & Hend)%drain_polled.
  destruct Hend as [[_ ->]|[_ [tr Hnone]]]; [done|].
  apply ordered_poll_inv in Hnone as ->. done.
Qed.

(** When the loop of [notify] has nothing to dispatch the object is left
    as it was. *)
Lemma notify_nothing_eligible o :
  m_available_thread_ids (base o) = [] ∨
    ¬ is_min_key (OrderedWorkQueue.m_queued_tasks (derived o))
        (OrderedWorkQueue.m_next_index (derived o)) →
  (notify o).1.2 = o ∧ spawned (notify o).2 = [].
Proof.
  intros Hidle.
  destruct (notify_closed o) as (tasks & p' & tr & Hdrain & Hlen & _ & Hsp & Hnotify).
  assert (tasks = [] ∧ p' = derived o) as [-> ->].
  { destruct (m_available_thread_ids (base o)) as [|id rest] eqn:Hids.
    { simpl in Hdrain. by injection Hdrain as <- <-. }
    destruct Hidle as [?|Hgap]; [done|]. simpl in Hdrain.
    destruct (ordered_get_next_task_cases (derived o))
      as [[_ Hpoll]|[(k & _ & _ & Hpoll)|(task & Hmin & _)]]; [| |done];
      unfold get_next_task, OrderedWorkQueue.task_source in Hdrain;
      rewrite Hpoll in Hdrain; by injection Hdrain as <- <-. }
  rewrite Hnotify. cbn [fst snd]. split.
  - destruct o as [[] ?]. simpl. unfold install. by rewrite zip_with_nil_r.
  - change (spawned (tr ++ [Unlock m_queue_mutex]) = []).
    rewrite spawned_app, Hsp. simpl. by rewrite zip_with_nil_r.
Qed.

Lemma is_min_key_insert_present (m : gmap Z Task) index task k :
  is_Some (m !! index) → is_min_key (<[index := task]> m) k ↔ is_min_key m k.
Proof.
  intros Hindex.
  assert (∀ k', is_Some (<[index := task]> m !! k') ↔ is_Some (m !! k')) as Hdom.
  { intros k'. rewrite lookup_insert_is_Some. split.
    - intros [<-|[_ ?]]; done.
    - intros Hk'. destruct (decide (index = k')); [by left|by right]. }
  unfold is_min_key. rewrite Hdom. by setoid_rewrite Hdom.
Qed.

(** C10, as the code has it.  add_task(task2, i) on an index i that is
    already pending raises no error, and task2 takes the place of the task
    stored under i (last write wins): after the call task2 is either the
    entry under i or among the tasks the call dispatched.  The pending
    count after the call plus the number of tasks dispatched by the call is
    the count before it; so size() is unchanged exactly when the notify at
    the end of add_task dispatches nothing, as is the case when no slot is
    free or next_index is not the least pending index. *)
Theorem ordered_add_task_same_index o index task1 task2 :
  OrderedWorkQueue.m_queued_tasks (derived o) !! index = Some task1 →
  let r := OrderedWorkQueue.add_task task2 index o in
  let m' := OrderedWorkQueue.m_queued_tasks (derived r.1.2) in
  r.1.1 = Ret tt ∧
  (m' !! index = Some task2 ∨ task2 ∈ (spawned r.2).*2) ∧
  (size m' + length (spawned r.2))%nat = size (OrderedWorkQueue.m_queued_tasks (derived o)) ∧
  (m_available_thread_ids (base o) = [] ∨
     ¬ is_min_key (OrderedWorkQueue.m_queued_tasks (derived o))
         (OrderedWorkQueue.m_next_index (derived o)) →
   m' = <[index := task2]> (OrderedWorkQueue.m_queued_tasks (derived o)) ∧
   (OrderedWorkQueue.size r.1.2).1.1 = (OrderedWorkQueue.size o).1.1).
Proof.
  intros Hindex r m'. subst r m'. rewrite ordered_add_task_eq. cbn [fst snd].
  set (stored := {| base := base o; derived := _ |}).
  assert (size (OrderedWorkQueue.m_queued_tasks (derived stored)) =
          size (OrderedWorkQueue.m_queued_tasks (derived o))) as Hsize.
  { simpl. apply map_size_insert_Some. by exists task1. }
  split_and!; [done| | |].
  - destruct (notify_summary stored) as (tasks & p' & q & tr & Hdrain & Hnotify & _ & Hsp & _).
    rewrite Hnotify. cbn [fst snd derived]. simpl in Hsp. simpl. rewrite Hsp.
    apply ordered_drain_polled in Hdrain.
    apply (ordered_polled_pending _ _ _ index task2 Hdrain). simpl.
    apply lookup_insert_eq.
  - destruct (notify_summary stored) as (tasks & p' & q & tr & Hdrain & Hnotify & _ & Hsp & _).
    rewrite Hnotify. cbn [fst snd derived]. simpl in Hsp. simpl.
    rewrite <-Hsize, <-(length_fmap snd), Hsp.
    apply ordered_drain_polled in Hdrain. by apply ordered_polled_size.
  - intros Hidle. destruct (notify_nothing_eligible stored) as [Hsame _].
    { destruct Hidle as [?|Hgap]; [by left|right]. simpl.
      rewrite is_min_key_insert_present; [done|by exists task1]. }
    rewrite Hsame. split; [done|]. rewrite !ordered_size_eq. cbn [fst snd].
    by rewrite Hsize.
Qed.
End SameIndex.

(** * Concrete runs *)

(** Tasks are told apart by a number. *)

Lemma singleton_min_key (k : Z) (task : nat) : is_min_key ({[k := task]} : gmap Z nat) k.
Proof.
  split; [exists task; apply lookup_singleton_eq|].
  intros k' [task' [-> _]%lookup_singleton_Some]. lia.
Qed.

(** The only pending task has the index next_index = 0: it is released. *)
Lemma ordered_get_next_task_spec_witness :
  OrderedWorkQueue.get_next_task
    {| OrderedWorkQueue.m_queued_tasks := {[0 := 7%nat]};
       OrderedWorkQueue.m_next_index := 0 |} =
  (Ret (Some 7%nat),
   {| OrderedWorkQueue.m_queued_tasks := delete 0 {[0 := 7%nat]};
      OrderedWorkQueue.m_next_index := 1 |},
   [Lock m_mutex; Unlock m_mutex]).
Proof.
  refine (proj2 (proj2 (ordered_get_next_task_spec
            {| OrderedWorkQueue.m_queued_tasks := {[0 := 7%nat]};
               OrderedWorkQueue.m_next_index := 0 |})) 0 7%nat _ _ _ _).
  - apply singleton_min_key.
  - reflexivity.
  - reflexivity.
  - unfold INT_MIN, INT_MAX. simpl. lia.
Defined.

(** Two free slots and one pending task: one dispatch, then "none". *)
Lemma notify_dispatches_witness :
  let q := {| WorkQueue.m_active_workers := 0; WorkQueue.m_max_workers := 2;
              WorkQueue.m_running_threads := [None; None];
              WorkQueue.m_available_thread_ids := [0; 1] |} in
  let o := {| base := q; derived := {| FifoWorkQueue.m_queued_tasks := [5%nat] |} |} in
  ∃ tasks p1 p' tr,
    polled (derived o) tasks p1 ∧
    ((length tasks = 2%nat ∧ p' = p1) ∨
     ((length tasks < 2)%nat ∧ ∃ tr', get_next_task p1 = (Ret None, p', tr'))) ∧
    spawned tr = zip [0; 1] tasks ∧
    notify o =
      (Ret tt,
       {| base :=
            {| WorkQueue.m_active_workers := 0 + Z.of_nat (length tasks);
               WorkQueue.m_max_workers := 2;
               WorkQueue.m_running_threads := install (zip [0; 1] tasks) [None; None];
               WorkQueue.m_available_thread_ids := drop (length tasks) [0; 1] |};
          derived := p' |},
       Lock m_queue_mutex :: tr ++ [Unlock m_queue_mutex]).
Proof.
  intros q o. apply (proj2 (notify_dispatches o)).
  - unfold INT_MIN. simpl. lia.
  - unfold INT_MAX. simpl. lia.
Defined.

Lemma slot_invariant_preserved_witness :
  ∃ q, WorkQueue.ctor (Task:=nat) 2 = Ret q ∧
       ∀ (p : FifoWorkQueue.t nat) o,
         rtc step {| base := q; derived := p |} o → slot_invariant (base o).
Proof.
  apply (slot_invariant_preserved 2).
  - unfold is_int, INT_MIN, INT_MAX. lia.
  - lia.
Defined.

(** Three submissions to a queue with one slot, then a poll. *)
Lemma fifo_release_order_witness :
  let o := {| base := {| WorkQueue.m_active_workers := 0; WorkQueue.m_max_workers := 1;
                         WorkQueue.m_running_threads := [None];
                         WorkQueue.m_available_thread_ids := [0] |};
              derived := {| FifoWorkQueue.m_queued_tasks := [] |} |} in
  let cs := [AddTask 1%nat; AddTask 2%nat; AddTask 3%nat; GetNextTask] in
  (run fifo_exec cs o).1.2
    ++ FifoWorkQueue.m_queued_tasks (derived (run fifo_exec cs o).1.1) =
  [1%nat; 2%nat; 3%nat].
Proof.
  intros o cs.
  apply (proj2 (proj2 (fifo_release_order (Task:=nat))) 1 o cs).
  reflexivity.
Defined.

(** Indices 3, 1, 0, 2 in this order of arrival, one slot, then polls. *)
Lemma ordered_next_index_witness :
  let o := {| base := {| WorkQueue.m_active_workers := 0; WorkQueue.m_max_workers := 1;
                         WorkQueue.m_running_threads := [None];
                         WorkQueue.m_available_thread_ids := [0] |};
              derived := {| OrderedWorkQueue.m_queued_tasks := (∅ : gmap Z nat);
                            OrderedWorkQueue.m_next_index := 0 |} |} in
  let cs := [AddTask (13%nat, 3); AddTask (11%nat, 1)] in
  let cs' := [AddTask (10%nat, 0); AddTask (12%nat, 2); GetNextTask; GetNextTask] in
  let o1 := (run ordered_exec cs o).1.1 in
  OrderedWorkQueue.m_next_index (derived (run ordered_exec cs' o1).1.1) =
    OrderedWorkQueue.m_next_index (derived o1)
      + Z.of_nat (length (run ordered_exec cs' o1).1.2).
Proof.
  intros o cs cs'.
  apply (proj1 (proj2 (ordered_next_index (Task:=nat))) 1 o cs cs').
  - reflexivity.
  - unfold releasable, INT_MIN, INT_MAX. simpl.
    repeat (constructor; [simpl; lia|]). constructor.
Defined.

(** A queue with one slot, fresh from its constructor: slot 0 is free, and
    reporting it complete is not caught. *)
Lemma worker_thread_complete_assertion_witness :
  let q := {| WorkQueue.m_active_workers := 0; WorkQueue.m_max_workers := 1;
              WorkQueue.m_running_threads := [@None (WorkQueue.WorkerThread nat)];
              WorkQueue.m_available_thread_ids := [0] |} in
  ∃ q', WorkQueue.worker_thread_complete 0 q =
          (Ret tt, q', [Lock m_queue_mutex; NotifyAll; Unlock m_queue_mutex]) ∧
        WorkQueue.m_running_threads q' = <[Z.to_nat 0 := None]> [None] ∧
        WorkQueue.m_available_thread_ids q' = [0] ++ [0].
Proof.
  intros q. refine (proj2 (worker_thread_complete_assertion q 0 _ _) _).
  - reflexivity.
  - unfold is_int, INT_MIN, INT_MAX. simpl. lia.
  - simpl. lia.
Defined.

Lemma worker_thread_complete_free_slot_counterexample :
  let q := {| WorkQueue.m_active_workers := 0; WorkQueue.m_max_workers := 1;
              WorkQueue.m_running_threads := [@None (WorkQueue.WorkerThread nat)];
              WorkQueue.m_available_thread_ids := [0] |} in
  WorkQueue.ctor 1 = Ret q ∧
  slot_free q 0 ∧
  WorkQueue.worker_thread_complete 0 q =
    (Ret tt,
     {| WorkQueue.m_active_workers := -1; WorkQueue.m_max_workers := 1;
        WorkQueue.m_running_threads := [None];
        WorkQueue.m_available_thread_ids := [0; 0] |},
     [Lock m_queue_mutex; NotifyAll; Unlock m_queue_mutex]).
Proof.
  intros q. split_and!; [reflexivity| |reflexivity].
  unfold slot_free. simpl. apply list_elem_of_here.
Qed.

Lemma ctor_rejects_negative_witness :
  WorkQueue.ctor (Task:=nat) (-1) = Throw length_error ∧
  FifoWorkQueue.ctor (Task:=nat) (-1) = Throw length_error ∧
  OrderedWorkQueue.ctor (Task:=nat) (-1) = Throw length_error.
Proof.
  apply (ctor_rejects_negative (-1)).
  - unfold is_int, INT_MIN, INT_MAX. lia.
  - lia.
Defined.

(** add_task on a FifoWorkQueue with a free slot: notify holds the slot
    mutex while get_next_task takes the mutex of the pending tasks. *)
Lemma lock_nesting_counterexample :
  let o := {| base := {| WorkQueue.m_active_workers := 0; WorkQueue.m_max_workers := 1;
                         WorkQueue.m_running_threads := [None];
                         WorkQueue.m_available_thread_ids := [0] |};
              derived := {| FifoWorkQueue.m_queued_tasks := [] |} |} in
  FifoWorkQueue.ctor 1 = Ret o ∧
  (FifoWorkQueue.add_task 5%nat o).2 =
    [Lock m_mutex; Unlock m_mutex;
     Lock m_queue_mutex; Lock m_mutex; Unlock m_mutex; Spawn 0 5%nat; Unlock m_queue_mutex] ∧
  nestings [] (FifoWorkQueue.add_task 5%nat o).2 = [(m_queue_mutex, m_mutex)].
Proof. intros o. split_and!; reflexivity. Qed.

Lemma capacity_zero_never_dispatches_witness :
  let o := {| base := {| WorkQueue.m_active_workers := 0; WorkQueue.m_max_workers := 0;
                         WorkQueue.m_running_threads := [];
                         WorkQueue.m_available_thread_ids := [] |};
              derived := {| FifoWorkQueue.m_queued_tasks := [] |} |} in
  let cs := [AddTask 1%nat; GetNextTask; AddTask 2%nat; Notify] in
  (WorkQueue.active_threads (base (run fifo_exec cs o).1.1)).1.1 = Ret 0 ∧
  WorkQueue.m_running_threads (base (run fifo_exec cs o).1.1) = [] ∧
  spawned (run fifo_exec cs o).2 = [].
Proof.
  intros o cs.
  destruct (proj1 (capacity_zero_never_dispatches (Task:=nat))) as (o' & Hctor & Hrun).
  injection Hctor as <-. apply Hrun.
  repeat (constructor; [reflexivity|]). constructor.
Defined.

(** Index 1 is pending twice over while every slot is busy: the second
    task replaces the first and the count stays 1. *)
Lemma ordered_add_task_same_index_witness :
  let o := {| base := {| WorkQueue.m_active_workers := 1; WorkQueue.m_max_workers := 1;
                         WorkQueue.m_running_threads :=
                           [Some {| WorkQueue.m_task := 5%nat; WorkQueue.m_thread_id := 0 |}];
                         WorkQueue.m_available_thread_ids := [] |};
              derived := {| OrderedWorkQueue.m_queued_tasks := {[1 := 7%nat]};
                            OrderedWorkQueue.m_next_index := 1 |} |} in
  let r := OrderedWorkQueue.add_task 8%nat 1 o in
  OrderedWorkQueue.m_queued_tasks (derived r.1.2) = <[1 := 8%nat]> {[1 := 7%nat]} ∧
  (OrderedWorkQueue.size r.1.2).1.1 = (OrderedWorkQueue.size o).1.1.
Proof.
  intros o r.
  refine (proj2 (proj2 (proj2 (ordered_add_task_same_index o 1 7%nat 8%nat _))) _).
  - reflexivity.
  - left. reflexivity.
Defined.

(** The same submission once slot 0 has become free again: notify releases
    the new task at once and the count drops from 1 to 0.  The state is the
    one reached from the constructor by the calls listed. *)
Lemma ordered_add_task_same_index_counterexample :
  let o0 := {| base := {| WorkQueue.m_active_workers := 0; WorkQueue.m_max_workers := 1;
                          WorkQueue.m_running_threads := [None];
                          WorkQueue.m_available_thread_ids := [0] |};
               derived := {| OrderedWorkQueue.m_queued_tasks := (∅ : gmap Z nat);
                             OrderedWorkQueue.m_next_index := 0 |} |} in
  let o := (run ordered_exec
              [AddTask (5%nat, 0); GetNextTask; AddTask (7%nat, 1); WorkerThreadComplete 0]
              o0).1.1 in
  OrderedWorkQueue.ctor 1 = Ret o0 ∧
  OrderedWorkQueue.m_queued_tasks (derived o) !! 1 = Some 7%nat ∧
  (OrderedWorkQueue.size o).1.1 = Ret 1 ∧
  (OrderedWorkQueue.add_task 8%nat 1 o).1.1 = Ret tt ∧
  (OrderedWorkQueue.size (OrderedWorkQueue.add_task 8%nat 1 o).1.2).1.1 = Ret 0.
Proof. intros o0 o. split_and!; reflexivity. Qed.

(** * Further properties of the code *)

(** ** WorkQueue::join_all *)

Section JoinAll.
Context {Task : Type}.
Import WorkQueue.
Implicit Types (q : WorkQueue.t Task) (wakes : list (WorkQueue.t Task → WorkQueue.t Task)).




End JoinAll.

(** ** WorkerThread::operator() on a FifoWorkQueue *)

Section FifoWorker.
Context {Task : Type}.
Import WorkQueue.
Implicit Types (o : object Task (FifoWorkQueue.t Task)) (w : WorkerThread Task).
Implicit Types (task : Task) (ts : list Task).

(** Tasks that leave the queue object alone: running [task] has the
    effects [effects task] and either returns or throws [fails task]. *)
Variable invoke : Task → M Task (object Task (FifoWorkQueue.t Task)) unit.
Variable effects : Task → list (event Task).
Variable fails : Task → option exn.
Hypothesis invoke_spec :
  ∀ task o, invoke task o =
    (match fails task with Some e => Throw e | None => Ret tt end, o, effects task).

Local Abbreviation polled_and_run := (polled_and_run effects).

Lemma worker_loop_drains ts fuel o :
  FifoWorkQueue.m_queued_tasks (derived o) = ts →
  Forall (λ task, fails task = None) ts →
  (length ts < fuel)%nat →
  worker_loop invoke fuel o =
    (Ret true,
     {| base := base o; derived := {| FifoWorkQueue.m_queued_tasks := [] |} |},
     polled_and_run ts ++ [Lock m_mutex; Unlock m_mutex]).
Proof.
  revert fuel o. induction ts as [|task ts IH]; intros fuel [q [pending]] Hts Hok Hfuel;
    simpl in Hts; subst pending; (destruct fuel as [|fuel]; [simpl in Hfuel; lia|]).
  - cbn [worker_loop]. unfold in_derived, zoom, mbind, M_bind, bind. cbn [derived base].
    by rewrite fifo_poll_nil.
  - apply Forall_cons in Hok as [Htask Hok].
    cbn [worker_loop]. unfold in_derived, zoom, mbind, M_bind, bind. cbn [derived base].
    rewrite fifo_poll_cons. rewrite invoke_spec, Htask.
    rewrite (IH fuel {| base := q; derived := {| FifoWorkQueue.m_queued_tasks := ts |} |});
      [|done|done|simpl in Hfuel; lia].
    unfold polled_and_run. simpl. by rewrite <-!(assoc_L (++)).
Qed.

Lemma worker_loop_throws ts1 task ts2 e fuel o :
  FifoWorkQueue.m_queued_tasks (derived o) = ts1 ++ task :: ts2 →
  Forall (λ task, fails task = None) ts1 →
  fails task = Some e →
  (length ts1 < fuel)%nat →
  worker_loop invoke fuel o =
    (Throw e,
     {| base := base o; derived := {| FifoWorkQueue.m_queued_tasks := ts2 |} |},
     polled_and_run ts1 ++ [Lock m_mutex; Unlock m_mutex] ++ effects task).
Proof.
  revert fuel o. induction ts1 as [|task1 ts1 IH]; intros fuel [q [pending]] Hts Hok He Hfuel;
    simpl in Hts; subst pending; (destruct fuel as [|fuel]; [simpl in Hfuel; lia|]).
  - cbn [worker_loop]. unfold in_derived, zoom, mbind, M_bind, bind. cbn [derived base].
    rewrite fifo_poll_cons. rewrite invoke_spec, He. simpl. done.
  - apply Forall_cons in Hok as [Htask Hok].
    cbn [worker_loop]. unfold in_derived, zoom, mbind, M_bind, bind. cbn [derived base].
    rewrite fifo_poll_cons. rewrite invoke_spec, Htask.
    rewrite (IH fuel {| base := q;
                        derived := {| FifoWorkQueue.m_queued_tasks := ts1 ++ task :: ts2 |} |});
      [|done|done|done|simpl in Hfuel; lia].
    unfold polled_and_run. simpl. by rewrite <-!(assoc_L (++)).
Qed.

(** X2. A worker thread of a FifoWorkQueue whose tasks all return runs its
    initial task and then every pending task, oldest first, on the one
    thread and without giving up its slot in between; when the queue has
    nothing left it reports completion: its entry of the slot table is
    emptied, its ID goes to the back of the free list, active_workers drops
    by 1 and the waiters of join_all are notified. *)
Theorem fifo_worker_drains_queue fuel w i o :
  consistent (base o) →
  m_running_threads (base o) !! i = Some (Some w) →
  fails (m_task w) = None →
  Forall (λ task, fails task = None) (FifoWorkQueue.m_queued_tasks (derived o)) →
  (length (FifoWorkQueue.m_queued_tasks (derived o)) < fuel)%nat →
  worker_run invoke fuel w o =
    (Ret true,
     {| base :=
          {| m_active_workers := m_active_workers (base o) - 1;
             m_max_workers := m_max_workers (base o);
             m_running_threads := <[i := None]> (m_running_threads (base o));
             m_available_thread_ids := m_available_thread_ids (base o) ++ [m_thread_id w] |};
        derived := {| FifoWorkQueue.m_queued_tasks := [] |} |},
     effects (m_task w)
       ++ polled_and_run (FifoWorkQueue.m_queued_tasks (derived o))
       ++ [Lock m_mutex; Unlock m_mutex]
       ++ [Lock m_queue_mutex; NotifyAll; Unlock m_queue_mutex]).
Proof.
  intros Hcons Hw Hinit Hok Hfuel.
  destruct (consistent_complete _ _ _ Hcons Hw) as [Hcomplete _].
  unfold worker_run, mbind, M_bind, bind. rewrite invoke_spec, Hinit.
  rewrite (worker_loop_drains _ fuel o eq_refl Hok Hfuel).
  unfold in_base, zoom, mret, M_ret, ret. cbn [base derived].
  rewrite Hcomplete. simpl. by rewrite <-!(assoc_L (++)).
Qed.

(** X3. Nothing in a worker thread catches what a task throws.  When the
    first task to fail is the initial one or a polled one, the exception
    leaves WorkerThread::operator() at that task: the tasks behind it stay
    pending, worker_thread_complete is not called, and the slot fields stay
    as they were, so the slot is still counted as active and its ID is not
    returned to the free list. *)
Theorem fifo_worker_task_throws fuel w o ts1 task ts2 e :
  m_task w :: FifoWorkQueue.m_queued_tasks (derived o) = ts1 ++ task :: ts2 →
  Forall (λ task, fails task = None) ts1 →
  fails task = Some e →
  (length ts1 ≤ fuel)%nat →
  (worker_run invoke fuel w o).1 =
    (Throw e, {| base := base o; derived := {| FifoWorkQueue.m_queued_tasks := ts2 |} |}).
Proof.
  intros Hall Hok He Hfuel. unfold worker_run, mbind, M_bind, bind. rewrite invoke_spec.
  destruct ts1 as [|task1 ts1]; simpl in Hall; injection Hall as Hw Hts.
  - rewrite Hw, He. destruct o as [q [pending]]. simpl in *. by subst.
  - apply Forall_cons in Hok as [Hinit Hok]. rewrite Hw, Hinit.
    rewrite (worker_loop_throws ts1 task ts2 e fuel o Hts Hok He); [done|].
    simpl in Hfuel. lia.
Qed.
End FifoWorker.

(** ** Submitting more tasks than there are slots *)

Section Saturation.
Context {Task : Type}.
Import WorkQueue.
Implicit Types (o : object Task (FifoWorkQueue.t Task)) (task : Task) (ts : list Task).

Lemma fifo_add_task_no_free_slot task o :
  m_available_thread_ids (base o) = [] →
  fifo_exec (AddTask task) o =
    (Ret None,
     {| base := base o;
        derived := {| FifoWorkQueue.m_queued_tasks :=
                        FifoWorkQueue.m_queued_tasks (derived o) ++ [task] |} |},
     [Lock m_mutex; Unlock m_mutex; Lock m_queue_mutex; Unlock m_queue_mutex]).
Proof.
  intros Hnil. unfold fifo_exec, exec, mbind, M_bind, bind, mret, M_ret, ret.
  rewrite fifo_add_task_eq. cbn [fst snd].
  by rewrite notify_no_free_slot_eq.
Qed.

Lemma fifo_add_task_free_slot task id rest o :
  FifoWorkQueue.m_queued_tasks (derived o) = [] →
  m_available_thread_ids (base o) = id :: rest →
  ∃ tr, spawned tr = [(id, task)] ∧
        fifo_exec (AddTask task) o =
          (Ret None,
           {| base := dispatch_one id rest task (base o);
              derived := {| FifoWorkQueue.m_queued_tasks := [] |} |},
           tr).
Proof.
  intros Hpending Hids.
  unfold fifo_exec, exec, mbind, M_bind, bind, mret, M_ret, ret.
  rewrite fifo_add_task_eq. cbn [fst snd]. rewrite Hpending. simpl app.
  match goal with |- context [notify ?o'] => set (stored := o') end.
  destruct (notify_closed stored) as (tasks & p' & tr & Hdrain & _ & _ & Hsp & Hnotify).
  assert (tasks = [task] ∧ p' = {| FifoWorkQueue.m_queued_tasks := [] |}) as [-> ->].
  { subst stored. cbn [base derived] in Hdrain. rewrite Hids in Hdrain.
    cbn [length drain] in Hdrain. rewrite fifo_poll_cons in Hdrain.
    destruct rest as [|id' rest]; cbn [length drain] in Hdrain;
      rewrite ?fifo_poll_nil in Hdrain; by injection Hdrain as <- <-. }
  rewrite Hnotify. subst stored. cbn [base derived fst snd] in *. rewrite Hids in *.
  exists (Lock m_mutex :: Unlock m_mutex
            :: (Lock m_queue_mutex :: tr ++ [Unlock m_queue_mutex]) ++ []).
  split.
  - simpl. rewrite app_nil_r, spawned_app, Hsp. simpl. by rewrite zip_with_nil_r.
  - unfold dispatch_one, set_active, set_running, set_available, install. simpl.
    by rewrite zip_with_nil_r.
Qed.

Lemma fifo_submissions_no_free_slot ts o :
  m_available_thread_ids (base o) = [] →
  (run fifo_exec (AddTask <$> ts) o).1.1 =
    {| base := base o;
       derived := {| FifoWorkQueue.m_queued_tasks :=
                       FifoWorkQueue.m_queued_tasks (derived o) ++ ts |} |} ∧
  spawned (run fifo_exec (AddTask <$> ts) o).2 = [].
Proof.
  revert o. induction ts as [|task ts IH]; intros o Hnil.
  { simpl. rewrite app_nil_r. by destruct o as [q []]. }
  rewrite fmap_cons, run_cons, fifo_add_task_no_free_slot by done. cbn [fst snd].
  destruct (IH {| base := base o;
                  derived := {| FifoWorkQueue.m_queued_tasks :=
                                  FifoWorkQueue.m_queued_tasks (derived o) ++ [task] |} |}
              Hnil) as [Hstate Hsp].
  rewrite Hstate, spawned_app, Hsp.
  cbn [base derived FifoWorkQueue.m_queued_tasks]. by rewrite <-(assoc_L (++)).
Qed.

(** Submissions to a queue with nothing pending: the first go to the free
    slots, in the order of the free list, and the rest are queued. *)
Lemma fifo_submissions ts o :
  FifoWorkQueue.m_queued_tasks (derived o) = [] →
  INT_MIN ≤ m_active_workers (base o) →
  m_active_workers (base o) + Z.of_nat (length (m_available_thread_ids (base o))) ≤ INT_MAX →
  (run fifo_exec (AddTask <$> ts) o).1.1 =
    {| base :=
         {| m_active_workers :=
              m_active_workers (base o)
                + Z.min (Z.of_nat (length ts))
                        (Z.of_nat (length (m_available_thread_ids (base o))));
            m_max_workers := m_max_workers (base o);
            m_running_threads :=
              install (zip (m_available_thread_ids (base o)) ts) (m_running_threads (base o));
            m_available_thread_ids := drop (length ts) (m_available_thread_ids (base o)) |};
       derived := {| FifoWorkQueue.m_queued_tasks :=
                       drop (length (m_available_thread_ids (base o))) ts |} |} ∧
  spawned (run fifo_exec (AddTask <$> ts) o).2 = zip (m_available_thread_ids (base o)) ts.
Proof.
  revert o. induction ts as [|task ts IH]; intros o Hpending Hlo Hhi.
  { simpl. rewrite drop_nil, Z.min_l, Z.add_0_r, zip_with_nil_r by lia.
    destruct o as [[] []]. simpl in *. by subst. }
  destruct (m_available_thread_ids (base o)) as [|id rest] eqn:Hids.
  { destruct (fifo_submissions_no_free_slot (task :: ts) o Hids) as [-> ->].
    rewrite Hpending. simpl. rewrite Z.add_0_r.
    destruct o as [[] []]. simpl in *. by subst. }
  destruct (fifo_add_task_free_slot task id rest o Hpending Hids) as (tr & Hsp & Hexec).
  rewrite fmap_cons, run_cons, Hexec. cbn [fst snd].
  simpl in Hhi.
  destruct (IH {| base := dispatch_one id rest task (base o);
                  derived := {| FifoWorkQueue.m_queued_tasks := [] |} |})
    as [Hstate Hsp']; [done|..].
  { simpl. rewrite to_int_succ; lia. }
  { simpl. rewrite to_int_succ; lia. }
  rewrite Hstate, spawned_app, Hsp, Hsp'. split; [|done].
  simpl. rewrite to_int_succ by lia.
  replace (m_active_workers (base o) + 1
             + Z.of_nat (length ts) `min` Z.of_nat (length rest))
    with (m_active_workers (base o)
             + Z.of_nat (S (length ts)) `min` Z.of_nat (S (length rest))) by lia.
  done.
Qed.

(** X4. A FifoWorkQueue constructed with [num_threads >= 0] slots, to which
    producers then submit the tasks [ts] (no worker having finished yet),
    runs the first [num_threads] of them, task number [j] in slot [j], and
    queues the others in order: active_threads() is min(|ts|, num_threads),
    the pending tasks are [ts] without its first [num_threads] elements,
    size() is their number as an int, and the free slots are the IDs from
    |ts| on. *)
Theorem fifo_saturation (num_threads : Z) ts :
  is_int num_threads → 0 ≤ num_threads →
  ∃ o, FifoWorkQueue.ctor num_threads = Ret o ∧
       let r := run fifo_exec (AddTask <$> ts) o in
       (active_threads (base r.1.1)).1.1 =
         Ret (Z.min (Z.of_nat (length ts)) num_threads) ∧
       FifoWorkQueue.m_queued_tasks (derived r.1.1) = drop (Z.to_nat num_threads) ts ∧
       m_available_thread_ids (base r.1.1) = drop (length ts) (seqZ 0 num_threads) ∧
       spawned r.2 = zip (seqZ 0 num_threads) ts ∧
       (FifoWorkQueue.size r.1.1).1.1 =
         Ret (to_int (Z.max 0 (Z.of_nat (length ts) - num_threads))) ∧
       (max_threads (base r.1.1)).1.1 = Ret num_threads.
Proof.
  intros Hint Hpos. destruct (ctor_consistent (Task:=Task) num_threads Hint Hpos)
    as (q & Hctor & _).
  unfold FifoWorkQueue.ctor. rewrite Hctor. eexists. split; [reflexivity|].
  unfold ctor in Hctor. destruct (_ <? _); [done|]. injection Hctor as <-.
  match goal with |- context [run fifo_exec _ ?o'] => set (o := o') end.
  destruct (fifo_submissions ts o) as [Hstate Hsp]; [done|..].
  { unfold INT_MIN. simpl. lia. }
  { simpl. rewrite length_seqZ. unfold is_int in Hint. lia. }
  cbv zeta. rewrite Hstate, Hsp. subst o. cbn [base derived fst snd].
  rewrite active_threads_eq, max_threads_eq, fifo_size_eq. cbn [fst snd].
  simpl. rewrite length_seqZ, length_drop. split_and!; [|done..| |done].
  - f_equal. lia.
  - do 2 f_equal. lia.
Qed.
End Saturation.

(** ** OrderedWorkQueue: what is released, and when nothing is *)

Section OrderedRelease.
Context {Task : Type}.
Import WorkQueue.
Implicit Types (p : OrderedWorkQueue.t Task) (o : object Task (OrderedWorkQueue.t Task)).
Implicit Types (c : call (Task * Z)) (cs : list (call (Task * Z))).
Implicit Types (task : Task) (tasks : list Task) (index k : Z).

Lemma notify_nothing_dispatched (o : object Task (OrderedWorkQueue.t Task)) :
  spawned (notify o).2 = [] → base (notify o).1.2 = base o.
Proof.
  destruct (notify_summary o) as (tasks & p' & q & tr & _ & Hnotify & _ & Hsp & _).
  destruct (notify_closed o) as (tasks' & p'' & tr' & _ & Hlen & _ & Hsp' & Hnotify').
  rewrite Hnotify' in *. cbn [fst snd base]. intros Hnone.
  assert (tasks' = []) as ->.
  { change (spawned (tr' ++ [Unlock m_queue_mutex]) = []) in Hnone.
    rewrite spawned_app, Hsp', app_nil_r in Hnone.
    apply (f_equal (fmap snd)) in Hnone. rewrite snd_zip in Hnone by done. done. }
  simpl. unfold install. rewrite zip_with_nil_r. by destruct (base o).
Qed.

(** What a call hands out it has polled, one task after the other, from
    the pending tasks it found (after its own store, for add_task). *)
Lemma ordered_exec_summary c o :
  polled (ordered_stored c (derived o))
         (handed_out (ordered_exec c o).1.1 (ordered_exec c o).2)
         (derived (ordered_exec c o).1.2) ∧
  (handed_out (ordered_exec c o).1.1 (ordered_exec c o).2 = [] →
   public c = true → base (ordered_exec c o).1.2 = base o).
Proof.
  destruct (base_call (Task:=Task) c) as [b|] eqn:Hbase.
  { destruct (exec_base_call (λ a, OrderedWorkQueue.add_task a.1 a.2) OrderedWorkQueue.size c o)
      as (r & q & tr & Heq & Hout & Hq & _); [by eexists|].
    unfold ordered_exec. rewrite Heq. cbn [fst snd base derived]. rewrite Hout.
    split; [|by intros _ ?%Hq]. destruct c; try done; constructor. }
  destruct c as [[task index]| | | | | | |]; try done; unfold ordered_exec.
  - unfold exec, mbind, M_bind, bind, mret, M_ret, ret.
    rewrite ordered_add_task_eq. cbn [fst snd ordered_stored].
    match goal with |- context [notify ?o'] => set (stored := o') end.
    destruct (notify_summary stored) as (tasks & p' & q & tr & Hdrain & Hnotify & _ & Hsp & _).
    pose proof (notify_nothing_dispatched stored) as Hbase'.
    rewrite Hnotify in *. cbn [fst snd base derived] in *.
    unfold handed_out. rewrite !app_nil_r.
    change (spawned ([Lock m_mutex; Unlock m_mutex]
                       ++ Lock m_queue_mutex :: tr ++ [Unlock m_queue_mutex]))
      with (spawned (Lock m_queue_mutex :: tr ++ [Unlock m_queue_mutex])).
    rewrite Hsp. split; [by apply ordered_drain_polled in Hdrain|].
    intros -> _. apply Hbase'. by apply fmap_nil_inv in Hsp.
  - rewrite exec_get_next_task. cbn [fst snd base derived ordered_stored].
    split; [|done].
    destruct (poll_returns (derived o)) as [r Hr].
    destruct (get_next_task (derived o)) as [[r' p'] tr] eqn:Hpoll. simpl in Hr. subst r'.
    assert (spawned tr = []) as Hsp.
    { pose proof (poll_effects (derived o)) as Heff. rewrite Hpoll in Heff.
      simpl in Heff. destruct Heff as [->| ->]; done. }
    unfold handed_out. cbn [fst snd]. rewrite Hsp. simpl.
    destruct r as [task|].
    + econstructor; [exact Hpoll|constructor].
    + apply ordered_poll_inv in Hpoll as ->. constructor.
  - unfold exec, mbind, M_bind, bind, mret, M_ret, ret. rewrite ordered_size_eq.
    cbn [fst snd ordered_stored]. split; [constructor|done].
  - destruct (exec_notify (λ a, OrderedWorkQueue.add_task a.1 a.2) OrderedWorkQueue.size o)
      as [-> _]. cbn [fst snd ordered_stored].
    destruct (notify_summary o) as (tasks & p' & q & tr & Hdrain & Hnotify & _ & Hsp & _).
    pose proof (notify_nothing_dispatched o) as Hbase'.
    rewrite Hnotify in *. cbn [fst snd base derived] in *.
    unfold handed_out. rewrite !app_nil_r, Hsp.
    split; [by apply ordered_drain_polled in Hdrain|].
    intros -> _. apply Hbase'. by apply fmap_nil_inv in Hsp.
Qed.

(** The tasks polled in a row are the entries at next_index, next_index + 1
    and so on, and what is pending afterwards was pending before. *)
Lemma ordered_polled_entries p tasks p1 :
  polled p tasks p1 →
  keys_releasable (OrderedWorkQueue.m_queued_tasks p) →
  (∀ i task, tasks !! i = Some task →
     OrderedWorkQueue.m_queued_tasks p !! (OrderedWorkQueue.m_next_index p + Z.of_nat i)
       = Some task) ∧
  (∀ k task, OrderedWorkQueue.m_queued_tasks p1 !! k = Some task →
     OrderedWorkQueue.m_queued_tasks p !! k = Some task).
Proof.
  induction 1 as [p|p task0 p1 tr tasks p2 Hpoll _ IH]; intros Hkeys.
  { split; [|done]. intros i task Hi. by rewrite lookup_nil in Hi. }
  apply ordered_poll_inv in Hpoll as (_ & Hk & ->). cbn [OrderedWorkQueue.m_queued_tasks
    OrderedWorkQueue.m_next_index] in IH.
  destruct IH as [IH1 IH2]; [by apply keys_releasable_delete|].
  rewrite to_int_succ in IH1 by (apply Hkeys; by exists task0).
  split.
  - intros [|i] task Hi.
    + simpl in Hi. injection Hi as <-. by rewrite Z.add_0_r.
    + simpl in Hi. apply IH1 in Hi. apply lookup_delete_Some in Hi as [_ Hi].
      rewrite <-Hi. f_equal. lia.
  - intros k task Hk'%IH2. by apply lookup_delete_Some in Hk' as [_ ?].
Qed.

(** Nothing is polled while next_index is not the least pending index. *)
Lemma ordered_polled_blocked p tasks p1 :
  polled p tasks p1 →
  ¬ is_min_key (OrderedWorkQueue.m_queued_tasks p) (OrderedWorkQueue.m_next_index p) →
  tasks = [] ∧ p1 = p.
Proof.
  intros Hpolled Hblocked. destruct Hpolled as [p|p task p1 tr tasks p2 Hpoll _]; [done|].
  by apply ordered_poll_inv in Hpoll as (Hmin & _).
Qed.

Lemma submitted_cons c cs : submitted (c :: cs) = submitted [c] ++ submitted cs.
Proof. by destruct c. Qed.

Lemma ordered_run_index_order cs o out sub :
  keys_releasable (OrderedWorkQueue.m_queued_tasks (derived o)) →
  OrderedWorkQueue.m_next_index (derived o) = Z.of_nat (length out) →
  (∀ k task, OrderedWorkQueue.m_queued_tasks (derived o) !! k = Some task →
             (task, k) ∈ sub) →
  (∀ j task, out !! j = Some task → (task, Z.of_nat j) ∈ sub) →
  Forall (λ a, releasable a.2) (submitted cs) →
  ∀ j task, (out ++ (run ordered_exec cs o).1.2) !! j = Some task →
            (task, Z.of_nat j) ∈ sub ++ submitted cs.
Proof.
  revert o out sub. induction cs as [|c cs IH]; intros o out sub Hkeys Hnext Hpending Hout Hsub.
  { simpl. rewrite !app_nil_r. done. }
  rewrite submitted_cons in Hsub. apply Forall_app in Hsub as [Hc Hcs].
  rewrite run_cons, submitted_cons. cbn [fst snd]. rewrite !(assoc_L (++)).
  destruct (ordered_exec_summary c o) as [Hpolled _].
  set (h := handed_out (ordered_exec c o).1.1 (ordered_exec c o).2) in *.
  set (ms := ordered_stored c (derived o)) in *.
  assert (keys_releasable (OrderedWorkQueue.m_queued_tasks ms)) as Hkeys'.
  { subst ms. destruct c as [a| | | | | | |]; try done.
    apply Forall_cons in Hc as [Ha _]. by apply keys_releasable_insert. }
  assert (OrderedWorkQueue.m_next_index ms = Z.of_nat (length out)) as Hnext'.
  { subst ms. by destruct c. }
  assert (∀ k task, OrderedWorkQueue.m_queued_tasks ms !! k = Some task →
                    (task, k) ∈ sub ++ submitted [c]) as Hpending'.
  { subst ms. intros k task. destruct c as [[task' index]| | | | | | |];
      simpl; rewrite ?app_nil_r; try apply Hpending.
    intros [[<- <-]|[_ Hk]]%lookup_insert_Some.
    - apply elem_of_app. right. apply list_elem_of_here.
    - apply elem_of_app. left. by apply Hpending. }
  destruct (ordered_polled_entries _ _ _ Hpolled Hkeys') as [Hentries Hsubmap].
  destruct (ordered_polled _ _ _ Hpolled Hkeys') as [Hnext'' Hkeys''].
  apply IH; [done| | | |done].
  - rewrite Hnext'', Hnext', length_app. lia.
  - intros k task Hk. apply Hpending'. by apply Hsubmap.
  - intros j task Hj. apply lookup_app_Some in Hj as [Hj|[Hge Hj]].
    + apply elem_of_app. left. by apply Hout.
    + apply Hentries, Hpending' in Hj. rewrite Hnext' in Hj.
      replace (Z.of_nat j) with (Z.of_nat (length out) + Z.of_nat (j - length out)) by lia.
      done.
Qed.

(** X5. An OrderedWorkQueue hands tasks out in index order: whatever calls
    are made on a constructed queue, the task handed out in position j
    (counting from 0, over the tasks given to new workers and those
    returned by get_next_task) is one that was submitted with index j.
    The submitted indices are ints below INT_MAX. *)
Theorem ordered_release_in_index_order num_threads o cs j task :
  OrderedWorkQueue.ctor num_threads = Ret o →
  Forall (λ a, releasable a.2) (submitted cs) →
  (run ordered_exec cs o).1.2 !! j = Some task →
  (task, Z.of_nat j) ∈ submitted cs.
Proof.
  intros Hctor Hsub Hj.
  unfold OrderedWorkQueue.ctor in Hctor. destruct (WorkQueue.ctor num_threads); [|done].
  injection Hctor as <-.
  match type of Hj with
  | context [run ordered_exec cs ?o'] =>
      refine (ordered_run_index_order cs o' [] [] _ _ _ _ Hsub j task Hj)
  end.
  - intros k [task' Hk]. simpl in Hk. by rewrite lookup_empty in Hk.
  - done.
  - intros k task' Hk. simpl in Hk. by rewrite lookup_empty in Hk.
  - intros j' task' Hj'. by rewrite lookup_nil in Hj'.
Qed.

Lemma ordered_run_blocked (blocked : OrderedWorkQueue.t Task → Prop)
    (allowed : Task * Z → Prop) cs o :
  (∀ p, blocked p →
        ¬ is_min_key (OrderedWorkQueue.m_queued_tasks p) (OrderedWorkQueue.m_next_index p)) →
  (∀ p a, blocked p → allowed a → blocked (ordered_store a p)) →
  blocked (derived o) →
  Forall allowed (submitted cs) →
  (run ordered_exec cs o).1.2 = [] ∧
  blocked (derived (run ordered_exec cs o).1.1) ∧
  (Forall (λ c, public c = true) cs → base (run ordered_exec cs o).1.1 = base o).
Proof.
  intros Hblocked Hstore. revert o. induction cs as [|c cs IH]; intros o Ho Hsub; [done|].
  rewrite submitted_cons in Hsub. apply Forall_app in Hsub as [Hc Hcs].
  destruct (ordered_exec_summary c o) as [Hpolled Hbase].
  assert (blocked (ordered_stored c (derived o))) as Hstored.
  { destruct c as [a| | | | | | |]; try done. apply Forall_cons in Hc as [Ha _].
    by apply Hstore. }
  destruct (ordered_polled_blocked _ _ _ Hpolled (Hblocked _ Hstored)) as [Hnone Hsame].
  rewrite <-Hsame in Hstored.
  destruct (IH _ Hstored Hcs) as (Hout & Hfinal & Hbase').
  rewrite run_cons. cbn [fst snd]. rewrite Hnone, Hout. split_and!; [done..|].
  intros [Hpub Hpubs]%Forall_cons. rewrite Hbase' by done. by apply Hbase.
Qed.

(** X6. While the task with index next_index has not been submitted, an
    OrderedWorkQueue releases nothing: if no task is pending under
    next_index and the calls that follow submit none under it, then no
    task is handed out, to a new worker or to a polling one, next_index
    keeps its value, and public calls leave the slot fields (and with them
    active_threads()) as they were. *)
Theorem ordered_gap_blocks_release cs o :
  OrderedWorkQueue.m_queued_tasks (derived o) !! OrderedWorkQueue.m_next_index (derived o)
    = None →
  Forall (λ a, a.2 ≠ OrderedWorkQueue.m_next_index (derived o)) (submitted cs) →
  (run ordered_exec cs o).1.2 = [] ∧
  OrderedWorkQueue.m_next_index (derived (run ordered_exec cs o).1.1) =
    OrderedWorkQueue.m_next_index (derived o) ∧
  (Forall (λ c, public c = true) cs → base (run ordered_exec cs o).1.1 = base o).
Proof.
  intros Hgap Hsub.
  destruct (ordered_run_blocked
              (λ p, OrderedWorkQueue.m_next_index p = OrderedWorkQueue.m_next_index (derived o) ∧
                    OrderedWorkQueue.m_queued_tasks p !! OrderedWorkQueue.m_next_index p = None)
              (λ a, a.2 ≠ OrderedWorkQueue.m_next_index (derived o)) cs o)
    as (Hout & [Hnext _] & Hbase); try done.
  - intros p [_ Hnone] [[task Hsome] _]. congruence.
  - intros p a [Hnext Hnone] Ha. split; [done|]. simpl.
    rewrite lookup_insert_ne; [done|]. by rewrite Hnext.
Qed.

(** X7. A task stored under an index below next_index is never released
    and blocks the queue for good: as long as such an entry is pending, no
    call hands out any task, whatever is submitted, and the entry stays. *)
Theorem ordered_stale_index_blocks_queue cs o k :
  k < OrderedWorkQueue.m_next_index (derived o) →
  is_Some (OrderedWorkQueue.m_queued_tasks (derived o) !! k) →
  (run ordered_exec cs o).1.2 = [] ∧
  OrderedWorkQueue.m_next_index (derived (run ordered_exec cs o).1.1) =
    OrderedWorkQueue.m_next_index (derived o) ∧
  is_Some (OrderedWorkQueue.m_queued_tasks (derived (run ordered_exec cs o).1.1) !! k).
Proof.
  intros Hk Hpending.
  destruct (ordered_run_blocked
              (λ p, OrderedWorkQueue.m_next_index p = OrderedWorkQueue.m_next_index (derived o) ∧
                    is_Some (OrderedWorkQueue.m_queued_tasks p !! k))
              (λ _, True) cs o)
    as (Hout & [Hnext Hstill] & _); try done.
  - intros p [Hnext Hsome] [_ Hmin]. specialize (Hmin _ Hsome). lia.
  - intros p a [Hnext Hsome] _. split; [done|]. simpl.
    rewrite lookup_insert_is_Some. destruct (decide (a.2 = k)); [by left|by right].
  - by apply Forall_true.
Qed.
End OrderedRelease.

(** ** The slot table and the free list *)

Section SlotTable.
Context {Task P : Type} `{!TaskSource Task P}.
Import WorkQueue.
Implicit Types (o : object Task P) (q : WorkQueue.t Task).

Lemma omap_insert_worker {A} (l : list (option A)) i x :
  l !! i = Some None →
  length (omap id (<[i := Some x]> l)) = S (length (omap id l)).
Proof.
  revert i. induction l as [|y l IH]; intros [|i] Hi; simpl in *; try done.
  - by injection Hi as ->.
  - specialize (IH i Hi). destruct y; simpl; [f_equal|]; exact IH.
Qed.

Lemma omap_insert_empty {A} (l : list (option A)) i x :
  l !! i = Some (Some x) →
  S (length (omap id (<[i := None]> l))) = length (omap id l).
Proof.
  revert i. induction l as [|y l IH]; intros [|i] Hi; simpl in *; try done.
  - by injection Hi as ->.
  - specialize (IH i Hi). destruct y; simpl; [f_equal|]; exact IH.
Qed.

Lemma slot_table_exact_dispatch_one q id rest task :
  slot_table_exact q → m_available_thread_ids q = id :: rest →
  slot_table_exact (dispatch_one id rest task q).
Proof.
  intros (Hcons & Hcount & Hempty) Hids.
  pose proof (consistent_dispatch_one q id rest task Hcons Hids) as Hcons'.
  destruct Hcons as (Hmax & [Hact Hsum] & Hlen & Hnodup & Hfree & Hown).
  pose proof Hcons' as (_ & [_ Hsum'] & _).
  rewrite Hids in Hsum, Hfree, Hnodup. simpl in Hsum, Hsum'.
  destruct (Hfree id) as [Hrange Hnone]; [apply list_elem_of_here|].
  split_and!.
  - done.
  - unfold workers_in_table, dispatch_one. simpl.
    rewrite omap_insert_worker by done. unfold workers_in_table in Hcount. lia.
  - unfold dispatch_one. simpl. intros id' Hrange' Hnone'.
    destruct (decide (id' = id)) as [->|Hne].
    + rewrite list_lookup_insert_eq in Hnone'; [done|lia].
    + rewrite list_lookup_insert_ne in Hnone' by lia.
      specialize (Hempty id' Hrange' Hnone'). rewrite Hids in Hempty.
      by apply elem_of_cons in Hempty as [?|?].
Qed.

Lemma slot_table_exact_complete q i w :
  slot_table_exact q → m_running_threads q !! i = Some (Some w) →
  slot_table_exact (worker_thread_complete (Task:=Task) (m_thread_id w) q).1.2.
Proof.
  intros (Hcons & Hcount & Hempty) Hw.
  destruct (consistent_complete q i w Hcons Hw) as [Heq Hcons'].
  split; [done|]. rewrite Heq. cbn [fst snd]. unfold workers_in_table in *. simpl.
  split.
  - pose proof (omap_insert_empty _ _ _ Hw). lia.
  - intros id Hrange Hnone. apply elem_of_app.
    destruct (decide (Z.to_nat id = i)) as [<-|Hne].
    + right. destruct Hcons as (_ & _ & _ & _ & _ & Hown).
      rewrite (Hown _ _ Hw). rewrite Z2Nat.id by lia. apply list_elem_of_here.
    + left. rewrite list_lookup_insert_ne in Hnone by done. by apply Hempty.
Qed.

Lemma step_slot_table_exact o o' :
  step o o' → slot_table_exact (base o) → slot_table_exact (base o').
Proof.
  intros Hstep Hexact. destruct Hstep as [o|o i w Hw|o p].
  - apply (notify_invariant slot_table_exact); [|done].
    intros. by apply slot_table_exact_dispatch_one.
  - pose proof (slot_table_exact_complete _ _ _ Hexact Hw) as Hc. exec_m.
    by destruct (worker_thread_complete (m_thread_id w) (base o)) as [[r q'] tr].
  - done.
Qed.

(** X8. In every state a queue constructed with num_threads >= 0 reaches
    (by notify, by workers of the slot table reporting completion, by
    changes to the derived class's fields), active_workers is the number of
    worker threads in the slot table, the free list holds no ID twice, and
    a slot ID of the queue is in the free list exactly when the slot's
    entry is empty; the worker in an occupied slot carries that slot's
    ID. *)
Theorem slot_table_matches_free_list (n : Z) :
  is_int n → 0 ≤ n →
  ∃ q, WorkQueue.ctor n = Ret q ∧
       ∀ (p : P) o, rtc step {| base := q; derived := p |} o →
         Z.of_nat (length (workers_in_table (base o))) = m_active_workers (base o) ∧
         NoDup (m_available_thread_ids (base o)) ∧
         ∀ id, 0 ≤ id < m_max_workers (base o) →
           (slot_free (base o) id ↔
              m_running_threads (base o) !! Z.to_nat id = Some None) ∧
           (¬ slot_free (base o) id ↔
              ∃ w, m_running_threads (base o) !! Z.to_nat id = Some (Some w) ∧
                   m_thread_id w = id).
Proof.
  intros Hint Hpos. destruct (ctor_consistent (Task:=Task) n Hint Hpos) as (q & Hctor & Hcons).
  exists q. split; [done|]. intros p o Hsteps.
  assert (slot_table_exact (base o)) as (Hc & Hcount & Hempty).
  { remember {| base := q; derived := p |} as o0 eqn:Ho0.
    assert (slot_table_exact (base o0)) as Hc0.
    { subst o0. cbn [base]. split; [done|].
      unfold WorkQueue.ctor in Hctor. destruct (_ <? _); [done|]. injection Hctor as <-.
      unfold workers_in_table. simpl. split.
      - generalize (Z.to_nat (to_size_t n)). intros m. by induction m.
      - intros id Hrange _. apply elem_of_seqZ. lia. }
    clear Ho0. induction Hsteps as [|o1 o2 o3 Hstep _ IH]; [done|].
    apply IH. by eapply step_slot_table_exact. }
  destruct Hc as (Hmax & _ & Hlen & Hnodup & Hfree & Hown).
  split_and!; [done..|]. intros id Hrange.
  assert (slot_free (base o) id ↔ m_running_threads (base o) !! Z.to_nat id = Some None)
    as Hiff.
  { split; [by intros [_ ?]%Hfree|by apply Hempty]. }
  split; [done|]. rewrite Hiff. split.
  - intros Hocc.
    destruct (lookup_lt_is_Some_2 (m_running_threads (base o)) (Z.to_nat id)) as [[w|] Hw];
      [lia| |done].
    exists w. split; [done|]. rewrite (Hown _ _ Hw). lia.
  - intros (w & Hw & _) Hnone. congruence.
Qed.
End SlotTable.

(** ** The capacity is fixed, and notify dispatches all it can *)

Section Capacity.
Context {Task A P : Type} `{!TaskSource Task P} `{!PollingSource Task P}.
Import WorkQueue.
Implicit Types (o : object Task P) (c : call A) (cs : list (call A)).
Variable add_task : A → M Task (object Task P) unit.
Variable size : M Task (object Task P) Z.
Hypothesis add_task_notifies :
  ∀ a o, ∃ p1, let stored := {| base := base o; derived := p1 |} in
    add_task a o = (Ret tt, (notify stored).1.2,
                    [Lock m_mutex; Unlock m_mutex] ++ (notify stored).2).
Hypothesis size_reads :
  ∀ o, ∃ z, size o = (Ret z, o, [Lock m_mutex; Unlock m_mutex]).

Lemma notify_max_workers o : m_max_workers (base (notify o).1.2) = m_max_workers (base o).
Proof.
  by apply (notify_invariant (λ q, m_max_workers q = m_max_workers (base o))).
Qed.

Lemma exec_max_workers c o :
  m_max_workers (base (exec add_task size c o).1.2) = m_max_workers (base o).
Proof.
  destruct c as [a| | | | | | |worker_id];
    unfold exec, mbind, M_bind, bind, mret, M_ret, ret.
  - destruct (add_task_notifies a o) as [p1 ->]. cbn [fst snd].
    by rewrite notify_max_workers.
  - unfold in_derived, zoom. by destruct (get_next_task (derived o)) as [[r p'] tr].
  - by destruct (size_reads o) as [z ->].
  - rewrite <-(notify_max_workers o). by destruct (notify o) as [[[[]|e] o'] tr].
  - done.
  - done.
  - unfold in_base, zoom. rewrite join_all_pass_eq. by destruct (_ =? _).
  - unfold in_base, zoom. destruct (id_in_table worker_id (base o)) eqn:Hid.
    + by rewrite (worker_thread_complete_in_table _ _ Hid).
    + by rewrite (worker_thread_complete_not_in_table _ _ Hid).
Qed.

Lemma run_max_workers cs o :
  m_max_workers (base (run (exec add_task size) cs o).1.1) = m_max_workers (base o).
Proof.
  revert o. induction cs as [|c cs IH]; intros o; [done|].
  rewrite run_cons. cbn [fst snd]. by rewrite IH, exec_max_workers.
Qed.
End Capacity.

Section CapacityTheorem.
Context {Task : Type}.
Import WorkQueue.

(** X9. The capacity of a queue is fixed at construction: after any
    sequence of calls on a FifoWorkQueue or an OrderedWorkQueue, also of
    worker_thread_complete with any ID, max_threads() answers the
    num_threads the queue was constructed with. *)
Theorem max_threads_is_fixed (num_threads : Z) :
  (∀ o cs, FifoWorkQueue.ctor (Task:=Task) num_threads = Ret o →
           (max_threads (base (run fifo_exec cs o).1.1)).1.1 = Ret num_threads) ∧
  (∀ o cs, OrderedWorkQueue.ctor (Task:=Task) num_threads = Ret o →
           (max_threads (base (run ordered_exec cs o).1.1)).1.1 = Ret num_threads).
Proof.
  split; intros o cs Hctor; rewrite max_threads_eq; cbn [fst snd]; f_equal.
  - unfold fifo_exec.
    rewrite (run_max_workers FifoWorkQueue.add_task FifoWorkQueue.size
               fifo_add_task_notifies (λ o, ex_intro _ _ (fifo_size_eq o))).
    unfold FifoWorkQueue.ctor, ctor in Hctor. destruct (_ <? _); [done|].
    by injection Hctor as <-.
  - unfold ordered_exec.
    rewrite (run_max_workers (λ a, OrderedWorkQueue.add_task a.1 a.2) OrderedWorkQueue.size
               ordered_add_task_notifies (λ o, ex_intro _ _ (ordered_size_eq o))).
    unfold OrderedWorkQueue.ctor, ctor in Hctor. destruct (_ <? _); [done|].
    by injection Hctor as <-.
Qed.
End CapacityTheorem.

Section NotifyTwice.
Context {Task P : Type} `{!TaskSource Task P} `{!PollingSource Task P}.
Import WorkQueue.
Implicit Types (o : object Task P) (p : P).

(** An answer "none" changes nothing. *)
Hypothesis none_changes_nothing :
  ∀ p p' tr, get_next_task p = (Ret None, p', tr) → p' = p.

Lemma notify_first_poll_none o :
  (m_available_thread_ids (base o) = [] ∨
   ∃ tr, get_next_task (derived o) = (Ret None, derived o, tr)) →
  (notify o).1.2 = o ∧ spawned (notify o).2 = [].
Proof.
  intros Hidle.
  destruct (notify_closed o) as (tasks & p' & tr & Hdrain & Hlen & _ & Hsp & Hnotify).
  assert (tasks = [] ∧ p' = derived o) as [-> ->].
  { destruct (m_available_thread_ids (base o)) as [|id rest] eqn:Hids.
    { simpl in Hdrain. by injection Hdrain as <- <-. }
    destruct Hidle as [?|[tr' Hnone]]; [done|]. simpl in Hdrain.
    rewrite Hnone in Hdrain. by injection Hdrain as <- <-. }
  rewrite Hnotify. cbn [fst snd]. split.
  - destruct o as [[] ?]. simpl. unfold install. by rewrite zip_with_nil_r.
  - change (spawned (tr ++ [Unlock m_queue_mutex]) = []).
    rewrite spawned_app, Hsp. simpl. by rewrite zip_with_nil_r.
Qed.

(** After [notify] no free slot is left or no task is eligible. *)
Lemma notify_exhausts o :
  m_available_thread_ids (base (notify o).1.2) = [] ∨
  ∃ tr, get_next_task (derived (notify o).1.2) =
          (Ret None, derived (notify o).1.2, tr).
Proof.
  destruct (notify_closed o) as (tasks & p' & tr & Hdrain & Hlen & _ & _ & Hnotify).
  rewrite Hnotify. cbn [fst snd base derived m_available_thread_ids].
  apply drain_polled in Hdrain as (p1 & _ & [[Hall ->]|[_ [tr' Hnone]]]).
  - left. rewrite Hall. apply drop_all.
  - right. pose proof (none_changes_nothing _ _ _ Hnone) as ->. by exists tr'.
Qed.

Lemma notify_twice o :
  (notify (notify o).1.2).1.2 = (notify o).1.2 ∧
  spawned (notify (notify o).1.2).2 = [].
Proof. apply notify_first_poll_none, notify_exhausts. Qed.
End NotifyTwice.

Section NotifyTwiceTheorem.
Context {Task : Type}.
Import WorkQueue.

Lemma ordered_poll_none (p p' : OrderedWorkQueue.t Task) tr :
  get_next_task p = (Ret None, p', tr) → p' = p.
Proof. intros Hpoll. by apply ordered_poll_inv in Hpoll. Qed.

(** X10. notify dispatches all it can: when it returns, the free list is
    empty or get_next_task has nothing eligible, for a FifoWorkQueue and
    for an OrderedWorkQueue.  A second notify right after it therefore
    creates no worker and leaves the object as the first one left it. *)
Theorem notify_dispatches_all_it_can :
  (∀ o : object Task (FifoWorkQueue.t Task),
      (m_available_thread_ids (base (notify o).1.2) = [] ∨
       FifoWorkQueue.m_queued_tasks (derived (notify o).1.2) = []) ∧
      (notify (notify o).1.2).1.2 = (notify o).1.2 ∧
      spawned (notify (notify o).1.2).2 = []) ∧
  (∀ o : object Task (OrderedWorkQueue.t Task),
      (m_available_thread_ids (base (notify o).1.2) = [] ∨
       ¬ is_min_key (OrderedWorkQueue.m_queued_tasks (derived (notify o).1.2))
           (OrderedWorkQueue.m_next_index (derived (notify o).1.2))) ∧
      (notify (notify o).1.2).1.2 = (notify o).1.2 ∧
      spawned (notify (notify o).1.2).2 = []).
Proof.
  split; intros o.
  - split; [|apply notify_twice, fifo_poll_none].
    destruct (notify_exhausts fifo_poll_none o) as [?|[tr Hnone]]; [by left|right].
    destruct (derived (notify o).1.2) as [[|task rest]]; [done|].
    by rewrite fifo_poll_cons in Hnone.
  - split; [|apply notify_twice, ordered_poll_none].
    destruct (notify_exhausts ordered_poll_none o) as [?|[tr Hnone]]; [by left|right].
    intros Hmin. destruct Hmin as [[task Hk] Hmin].
    pose proof (ordered_get_next_task_release _ _ task
                  (conj (ex_intro _ task Hk) Hmin) Hk eq_refl) as Hrel.
    discriminate (eq_trans (eq_sym Hrel) Hnone).
Qed.
End NotifyTwiceTheorem.

(** ** notify makes progress *)

Section Progress.
Context {Task : Type}.
Import WorkQueue.

Lemma notify_first_dispatch {P : Type} `{!TaskSource Task P} `{!PollingSource Task P}
    (o : object Task P) id rest task p1 tr1 :
  m_available_thread_ids (base o) = id :: rest →
  get_next_task (derived o) = (Ret (Some task), p1, tr1) →
  ∃ more, spawned (notify o).2 = (id, task) :: more ∧
          m_available_thread_ids (base (notify o).1.2) = drop (length more) rest.
Proof.
  intros Hids Hpoll.
  destruct (notify_closed o) as (tasks & p' & tr & Hdrain & Hlen & _ & Hsp & Hnotify).
  rewrite Hids in Hdrain, Hlen, Hsp, Hnotify. simpl in Hdrain. rewrite Hpoll in Hdrain.
  destruct (drain (length rest) p1) as [[tasks' p''] r'] eqn:Hdrain'.
  injection Hdrain as <- <- ->.
  exists (zip rest tasks'). rewrite Hnotify. cbn [fst snd base m_available_thread_ids].
  split.
  - change (spawned (tr ++ [Unlock m_queue_mutex]) = (id, task) :: zip rest tasks').
    rewrite spawned_app, Hsp. simpl. by rewrite app_nil_r.
  - simpl. rewrite length_zip_with. simpl in Hlen. f_equal. lia.
Qed.

(** X11. notify makes progress.  With a free slot and a pending task, on a
    FifoWorkQueue the oldest pending task is given to a new worker in the
    front slot of the free list; on an OrderedWorkQueue the same holds for
    the task stored under next_index, provided that index is the least
    pending one. *)
Theorem notify_dispatches_eligible_task :
  (∀ (o : object Task (FifoWorkQueue.t Task)) id rest task pending,
      m_available_thread_ids (base o) = id :: rest →
      FifoWorkQueue.m_queued_tasks (derived o) = task :: pending →
      ∃ more, spawned (notify o).2 = (id, task) :: more ∧
              m_available_thread_ids (base (notify o).1.2) = drop (length more) rest) ∧
  (∀ (o : object Task (OrderedWorkQueue.t Task)) id rest task,
      m_available_thread_ids (base o) = id :: rest →
      is_min_key (OrderedWorkQueue.m_queued_tasks (derived o))
                 (OrderedWorkQueue.m_next_index (derived o)) →
      OrderedWorkQueue.m_queued_tasks (derived o) !! OrderedWorkQueue.m_next_index (derived o)
        = Some task →
      ∃ more, spawned (notify o).2 = (id, task) :: more ∧
              m_available_thread_ids (base (notify o).1.2) = drop (length more) rest).
Proof.
  split.
  - intros o id rest task pending Hids Hpending.
    eapply notify_first_dispatch; [done|].
    destruct (derived o) as [ts]. simpl in Hpending. subst ts. apply fifo_poll_cons.
  - intros o id rest task Hids Hmin Hk.
    eapply notify_first_dispatch; [done|].
    apply (ordered_get_next_task_release _ _ _ Hmin Hk eq_refl).
Qed.
End Progress.

(** ** Concrete runs of the further properties *)


(** A one-slot queue whose slot holds the worker of task 5. *)
Lemma one_busy_slot_consistent :
  consistent {| WorkQueue.m_active_workers := 1; WorkQueue.m_max_workers := 1;
                WorkQueue.m_running_threads :=
                  [Some {| WorkQueue.m_task := 5%nat; WorkQueue.m_thread_id := 0 |}];
                WorkQueue.m_available_thread_ids := [] |}.
Proof.
  unfold consistent, slot_invariant, is_int, INT_MIN, INT_MAX. simpl.
  split_and!; try lia; try done.
  - apply NoDup_nil_2.
  - intros id Hid. by apply elem_of_nil in Hid.
  - intros [|i] w Hw; simpl in Hw; [by injection Hw as <-|done].
Qed.

(** The worker of task 5 finds tasks 6 and 7 pending: it runs all three and
    then gives its slot back. *)
Lemma fifo_worker_drains_queue_witness :
  let w := {| WorkQueue.m_task := 5%nat; WorkQueue.m_thread_id := 0 |} in
  let q := {| WorkQueue.m_active_workers := 1; WorkQueue.m_max_workers := 1;
              WorkQueue.m_running_threads := [Some w];
              WorkQueue.m_available_thread_ids := [] |} in
  let o := {| base := q; derived := {| FifoWorkQueue.m_queued_tasks := [6%nat; 7%nat] |} |} in
  worker_run (λ task o, (Ret tt, o, [])) 3 w o =
    (Ret true,
     {| base := {| WorkQueue.m_active_workers := 1 - 1; WorkQueue.m_max_workers := 1;
                   WorkQueue.m_running_threads := <[0%nat := None]> [Some w];
                   WorkQueue.m_available_thread_ids := [] ++ [0] |};
        derived := {| FifoWorkQueue.m_queued_tasks := [] |} |},
     []
       ++ polled_and_run (λ _, []) [6%nat; 7%nat]
       ++ [Lock m_mutex; Unlock m_mutex]
       ++ [Lock m_queue_mutex; NotifyAll; Unlock m_queue_mutex]).
Proof.
  intros w q o.
  refine (fifo_worker_drains_queue (λ task o, (Ret tt, o, []))
            (λ _, []) (λ _, None) _ 3 w 0 o _ _ _ _ _).
  - reflexivity.
  - apply one_busy_slot_consistent.
  - reflexivity.
  - reflexivity.
  - repeat constructor.
  - simpl. lia.
Defined.

(** Task 7 throws: the worker of task 5 has run 5 and 6, task 8 stays
    pending and the slot is not given back. *)
Lemma fifo_worker_task_throws_witness :
  let w := {| WorkQueue.m_task := 5%nat; WorkQueue.m_thread_id := 0 |} in
  let q := {| WorkQueue.m_active_workers := 1; WorkQueue.m_max_workers := 1;
              WorkQueue.m_running_threads := [Some w];
              WorkQueue.m_available_thread_ids := [] |} in
  let o := {| base := q;
              derived := {| FifoWorkQueue.m_queued_tasks := [6%nat; 7%nat; 8%nat] |} |} in
  let fails := λ task : nat, if (task =? 7)%nat then Some LogicErr else None in
  (worker_run (λ task o, (match fails task with Some e => Throw e | None => Ret tt end,
                          o, [])) 2 w o).1 =
    (Throw LogicErr,
     {| base := q; derived := {| FifoWorkQueue.m_queued_tasks := [8%nat] |} |}).
Proof.
  intros w q o fails.
  refine (fifo_worker_task_throws
            (λ task o, (match fails task with Some e => Throw e | None => Ret tt end, o, []))
            (λ _, []) fails _ 2 w o [5%nat; 6%nat] 7%nat [8%nat] LogicErr _ _ _ _).
  - reflexivity.
  - reflexivity.
  - repeat constructor.
  - reflexivity.
  - simpl. lia.
Defined.

(** Three submissions to a fresh queue with two slots. *)
Lemma fifo_saturation_witness :
  ∃ o, FifoWorkQueue.ctor 2 = Ret o ∧
       let r := run fifo_exec (AddTask <$> [1%nat; 2%nat; 3%nat]) o in
       (WorkQueue.active_threads (base r.1.1)).1.1 = Ret (Z.min (Z.of_nat 3) 2) ∧
       FifoWorkQueue.m_queued_tasks (derived r.1.1) = drop (Z.to_nat 2) [1%nat; 2%nat; 3%nat] ∧
       WorkQueue.m_available_thread_ids (base r.1.1) = drop 3 (seqZ 0 2) ∧
       spawned r.2 = zip (seqZ 0 2) [1%nat; 2%nat; 3%nat] ∧
       (FifoWorkQueue.size r.1.1).1.1 = Ret (to_int (Z.max 0 (Z.of_nat 3 - 2))) ∧
       (WorkQueue.max_threads (base r.1.1)).1.1 = Ret 2.
Proof.
  apply (fifo_saturation 2 [1%nat; 2%nat; 3%nat]).
  - unfold is_int, INT_MIN, INT_MAX. lia.
  - lia.
Defined.

Lemma ordered_release_in_index_order_witness :
  let o : object nat (OrderedWorkQueue.t nat) :=
           {| base := {| WorkQueue.m_active_workers := 0; WorkQueue.m_max_workers := 1;
                         WorkQueue.m_running_threads := [None];
                         WorkQueue.m_available_thread_ids := [0] |};
              derived := {| OrderedWorkQueue.m_queued_tasks := (∅ : gmap Z nat);
                            OrderedWorkQueue.m_next_index := 0 |} |} in
  let cs := [AddTask (11%nat, 1); AddTask (10%nat, 0); GetNextTask] in
  (run ordered_exec cs o).1.2 = [10%nat; 11%nat] ∧
  (11%nat, Z.of_nat 1) ∈ submitted cs.
Proof.
  intros o cs. split; [reflexivity|].
  refine (ordered_release_in_index_order 1 o cs 1 11%nat _ _ _).
  - reflexivity.
  - unfold releasable, INT_MIN, INT_MAX. simpl.
    repeat (constructor; [simpl; lia|]). constructor.
  - reflexivity.
Defined.

(** Indices 1 and 2 without 0: nothing is released. *)
Lemma ordered_gap_blocks_release_witness :
  let o := {| base := {| WorkQueue.m_active_workers := 0; WorkQueue.m_max_workers := 1;
                         WorkQueue.m_running_threads := [None];
                         WorkQueue.m_available_thread_ids := [0] |};
              derived := {| OrderedWorkQueue.m_queued_tasks := (∅ : gmap Z nat);
                            OrderedWorkQueue.m_next_index := 0 |} |} in
  let cs := [AddTask (11%nat, 1); AddTask (12%nat, 2); GetNextTask; Notify] in
  (run ordered_exec cs o).1.2 = [] ∧
  OrderedWorkQueue.m_next_index (derived (run ordered_exec cs o).1.1) = 0 ∧
  (Forall (λ c, public c = true) cs → base (run ordered_exec cs o).1.1 = base o).
Proof.
  intros o cs. refine (ordered_gap_blocks_release cs o _ _).
  - reflexivity.
  - simpl. repeat (constructor; [simpl; lia|]). constructor.
Defined.

(** Index 0 submitted again after its release: the queue is stuck. *)
Lemma ordered_stale_index_blocks_queue_witness :
  let o := {| base := {| WorkQueue.m_active_workers := 0; WorkQueue.m_max_workers := 1;
                         WorkQueue.m_running_threads := [None];
                         WorkQueue.m_available_thread_ids := [0] |};
              derived := {| OrderedWorkQueue.m_queued_tasks := ({[0 := 9%nat]} : gmap Z nat);
                            OrderedWorkQueue.m_next_index := 1 |} |} in
  let cs := [AddTask (11%nat, 1); GetNextTask; Notify] in
  (run ordered_exec cs o).1.2 = [] ∧
  OrderedWorkQueue.m_next_index (derived (run ordered_exec cs o).1.1) = 1 ∧
  is_Some (OrderedWorkQueue.m_queued_tasks (derived (run ordered_exec cs o).1.1) !! 0).
Proof.
  intros o cs. refine (ordered_stale_index_blocks_queue cs o 0 _ _).
  - simpl. lia.
  - exists 9%nat. reflexivity.
Defined.

Lemma slot_table_matches_free_list_witness :
  ∃ q, WorkQueue.ctor (Task:=nat) 2 = Ret q ∧
       ∀ (p : FifoWorkQueue.t nat) o, rtc step {| base := q; derived := p |} o →
         Z.of_nat (length (workers_in_table (base o))) = WorkQueue.m_active_workers (base o) ∧
         NoDup (WorkQueue.m_available_thread_ids (base o)) ∧
         ∀ id, 0 ≤ id < WorkQueue.m_max_workers (base o) →
           (slot_free (base o) id ↔
              WorkQueue.m_running_threads (base o) !! Z.to_nat id = Some None) ∧
           (¬ slot_free (base o) id ↔
              ∃ w, WorkQueue.m_running_threads (base o) !! Z.to_nat id = Some (Some w) ∧
                   WorkQueue.m_thread_id w = id).
Proof.
  apply (slot_table_matches_free_list 2).
  - unfold is_int, INT_MIN, INT_MAX. lia.
  - lia.
Defined.

Lemma max_threads_is_fixed_witness :
  let o := {| base := {| WorkQueue.m_active_workers := 0; WorkQueue.m_max_workers := 2;
                         WorkQueue.m_running_threads := [None; None];
                         WorkQueue.m_available_thread_ids := [0; 1] |};
              derived := {| FifoWorkQueue.m_queued_tasks := [] |} |} in
  let cs := [AddTask 1%nat; WorkerThreadComplete 0; WorkerThreadComplete 7] in
  (WorkQueue.max_threads (base (run fifo_exec cs o).1.1)).1.1 = Ret 2.
Proof.
  intros o cs. apply (proj1 (max_threads_is_fixed (Task:=nat) 2) o cs). reflexivity.
Defined.

Lemma notify_dispatches_eligible_task_witness :
  let o := {| base := {| WorkQueue.m_active_workers := 0; WorkQueue.m_max_workers := 1;
                         WorkQueue.m_running_threads := [None];
                         WorkQueue.m_available_thread_ids := [0] |};
              derived := {| FifoWorkQueue.m_queued_tasks := [5%nat; 6%nat] |} |} in
  ∃ more, spawned (notify o).2 = (0, 5%nat) :: more ∧
          WorkQueue.m_available_thread_ids (base (notify o).1.2) = drop (length more) [].
Proof.
  intros o.
  refine (proj1 (notify_dispatches_eligible_task (Task:=nat)) o 0 [] 5%nat [6%nat] _ _);
    reflexivity.
Defined.
